(** * The receive-side core of the Service Bus client, embedded in Rocq.

    The development follows [lib/core/messageReceiver.ts] (class
    [MessageReceiver]) and [lib/clientEntityContext.ts]
    ([ClientEntityContext.create]).  The event loop of the JavaScript runtime
    is made explicit: a callback that the source registers (a [setTimeout]
    closure, an event handler, the continuation after an [await]) becomes a
    transition that the environment fires, and what the source does to the
    outside world (transport frames, promise callbacks, calls on
    collaborators) is recorded, oldest first, in a list carried by the state. *)

From Stdlib Require Import ZArith String List Bool Lia.
From stdpp Require Import gmap strings list fin_maps pretty.

Local Open Scope Z_scope.

(* ===================================================================== *)
(** ** Values shared by all parts: errors and what the libraries supply   *)
(* ===================================================================== *)

(** [AmqpError] of rhea-promise: every field is optional. *)
Record AmqpError := mkAmqpError {
  condition : option string;
  description : option string
}.

(** What the source receives as [AmqpError | Error], or catches. *)
Inductive Thrown :=
| AmqpFault (e : AmqpError)
| JsError (name message : string).

(** [MessagingError] of @azure/amqp-common, the result of [translate]. *)
Record MessagingError := mkMessagingError {
  errName : string;
  retryable : bool;
  errMessage : string
}.

(** What the imports of the two source files supply and the repository does
    not define: [translate], [ConditionErrorNameMapper] and [Constants] of
    @azure/amqp-common, [messageDispositionTimeout] of [../util/constants],
    [getUniqueName] and [calculateRenewAfterDuration] of [../util/utils]
    (the second argument of [getUniqueName] stands for the randomness of the
    generated suffix, the second of [calculateRenewAfterDuration] for the
    clock it reads). *)
Record Externals := mkExternals {
  translate : Thrown -> MessagingError;
  messageLockLostName : string;
  messageDispositionTimeout : Z;
  defaultConnectionRetryAttempts : nat;
  getUniqueName : string -> nat -> string;
  calculateRenewAfterDuration : Z -> Z -> Z
}.

(** JavaScript truthiness of an optional string: [undefined] and the empty
    string are falsy. *)
Definition truthy (o : option string) : bool :=
  match o with
  | Some s => negb (String.eqb s EmptyString)
  | None => false
  end.

(* ===================================================================== *)
(** ** Settlement: [settleMessage], [_onSettled] and the timeout closure  *)
(* ===================================================================== *)

Module Settlement.

(** [Dictionary<any>] as the source passes it along, unread. *)
Definition Dictionary := list (string * string).

Record DispositionOptions := mkDispositionOptions {
  propertiesToModify : option Dictionary;
  error : option AmqpError
}.

(** The part of rhea's [Delivery] the receiver reads. *)
Record RemoteState := mkRemoteState {
  state_error : option AmqpError
}.

Record Delivery := mkDelivery {
  id : Z;
  remote_settled : bool;
  remote_state : option RemoteState
}.

(** The disposition primitives called on a delivery: [accept()],
    [modified(params)] and [reject(error)]. *)
Inductive Frame :=
| Accept (delivery : Z)
| Modified (delivery : Z) (undeliverable_here : bool)
           (message_annotations : option Dictionary)
| Reject (delivery : Z) (err : AmqpError).

Definition frame_delivery (f : Frame) : Z :=
  match f with
  | Accept d => d
  | Modified d _ _ => d
  | Reject d _ => d
  end.

(** What a promise callback was called with. *)
Inductive Reason :=
| PlainError (message : string)
| Translated (e : MessagingError).

Inductive Outcome :=
| Resolved
| Rejected (r : Reason).

(** interface [PromiseLike]: [resolve] and [reject] are the two callbacks of
    one promise, named here by the promise; [timer] is a [setTimeout] handle. *)
Record PromiseLike := mkPromiseLike {
  promise : nat;
  timer : nat
}.

(** The closure given to [setTimeout] in [settleMessage]: it captures
    [delivery.id] and [resolve]. *)
Record TimeoutTask := mkTimeoutTask {
  task_delay : Z;
  task_delivery : Z;
  task_promise : nat
}.

(** The receiver's settlement state together with what the runtime holds for
    it: the pending timers, the frames sent, and every call of a promise
    callback so far. *)
Record Receiver := mkReceiver {
  _deliveryDispositionMap : gmap Z PromiseLike;
  timers : gmap nat TimeoutTask;
  frames : list Frame;
  settlements : list (nat * Outcome);
  nextPromise : nat;
  nextTimer : nat
}.

Definition newReceiver : Receiver :=
  mkReceiver ∅ ∅ [] [] 0%nat 0%nat.

(** enum [DispositionType] and the string each member stands for. *)
Inductive DispositionType := complete | deadletter | abandon | defer.

Definition dispositionName (k : DispositionType) : string :=
  match k with
  | complete => "complete"
  | deadletter => "deadletter"
  | abandon => "abandon"
  | defer => "defer"
  end.

(** [operation.match(/^(complete|abandon|defer|deadletter)$/)]: an anchored
    alternation of four literals. *)
Definition matchesOperation (operation : string) : bool :=
  String.eqb operation "complete" || String.eqb operation "abandon"
  || String.eqb operation "defer" || String.eqb operation "deadletter".

Definition invalidOperation (operation : string) : Reason :=
  PlainError
    (String.append "operation: '"
       (String.append operation "' is not a valid operation.")).

(** The [if]/[else if] chain at the end of [settleMessage]: the disposition
    primitive called on the delivery, [None] when no branch applies. *)
Definition dispositionFrame (delivery : Delivery) (operation : string)
    (options : DispositionOptions) : option Frame :=
  if String.eqb operation (dispositionName complete) then
    Some (Accept (id delivery))
  else if String.eqb operation (dispositionName abandon) then
    Some (Modified (id delivery) false (propertiesToModify options))
  else if String.eqb operation (dispositionName defer) then
    Some (Modified (id delivery) true (propertiesToModify options))
  else if String.eqb operation (dispositionName deadletter) then
    Some (Reject (id delivery)
            (match error options with
             | Some e => e
             | None => mkAmqpError None None
             end))
  else None.

Section WithExternals.
Context (ext : Externals).

(** [settleMessage(delivery, operation, options)]: the executor of the
    returned promise, which runs synchronously.  The result is the new state
    and the promise handed to the caller. *)
Definition settleMessage (delivery : Delivery) (operation : string)
    (options : option DispositionOptions) (r : Receiver) : Receiver * nat :=
  let p := nextPromise r in
  let options :=
    match options with
    | Some o => o
    | None => mkDispositionOptions None None
    end in
  if negb (matchesOperation operation) then
    (mkReceiver (_deliveryDispositionMap r) (timers r) (frames r)
       (settlements r ++ [(p, Rejected (invalidOperation operation))])
       (S p) (nextTimer r), p)
  else
    let t := nextTimer r in
    let task := mkTimeoutTask (messageDispositionTimeout ext) (id delivery) p in
    (mkReceiver
       (<[id delivery := mkPromiseLike p t]> (_deliveryDispositionMap r))
       (<[t := task]> (timers r))
       (frames r ++ option_list (dispositionFrame delivery operation options))
       (settlements r)
       (S p) (S t), p).

(** The timeout closure of [settleMessage], run by the runtime when handle
    [t] is due; a handle that was cleared, or has fired, runs nothing. *)
Definition timeoutFires (t : nat) (r : Receiver) : Receiver :=
  match timers r !! t with
  | None => r
  | Some task =>
      mkReceiver
        (delete (task_delivery task) (_deliveryDispositionMap r))
        (delete t (timers r))
        (frames r)
        (settlements r ++ [(task_promise task, Resolved)])
        (nextPromise r) (nextTimer r)
  end.

(** The test [state && state.error && (state.error.condition ||
    state.error.description)] of [_onSettled]. *)
Definition settlementError (state : option RemoteState) : option AmqpError :=
  match state with
  | Some st =>
      match state_error st with
      | Some e =>
          if truthy (condition e) || truthy (description e) then Some e
          else None
      | None => None
      end
  | None => None
  end.

Definition acknowledgedOutcome (state : option RemoteState) : Outcome :=
  match settlementError state with
  | Some e => Rejected (Translated (translate ext (AmqpFault e)))
  | None => Resolved
  end.

(** [_onSettled(context)], with [context.delivery] possibly absent. *)
Definition _onSettled (delivery : option Delivery) (r : Receiver) : Receiver :=
  match delivery with
  | None => r
  | Some d =>
      if remote_settled d then
        match _deliveryDispositionMap r !! id d with
        | Some pl =>
            mkReceiver
              (delete (id d) (_deliveryDispositionMap r))
              (delete (timer pl) (timers r))
              (frames r)
              (settlements r
                 ++ [(promise pl, acknowledgedOutcome (remote_state d))])
              (nextPromise r) (nextTimer r)
        | None => r
        end
      else r
  end.

(** What the event loop can run against a receiver's settlement state. *)
Inductive Event :=
| CallSettle (delivery : Delivery) (operation : string)
             (options : option DispositionOptions)
| SettledEvent (delivery : option Delivery)
| TimerDue (t : nat).

Definition step (e : Event) (r : Receiver) : Receiver :=
  match e with
  | CallSettle d op o => fst (settleMessage d op o r)
  | SettledEvent d => _onSettled d r
  | TimerDue t => timeoutFires t r
  end.

Definition run (es : list Event) (r : Receiver) : Receiver :=
  fold_left (fun acc e => step e acc) es r.

End WithExternals.

(** How often a promise's callbacks have been called. *)
Definition timesSettled (p : nat) (r : Receiver) : nat :=
  length (filter (fun x => fst x = p) (settlements r)).

Definition framesFor (d : Z) (r : Receiver) : list Frame :=
  filter (fun f => frame_delivery f = d) (frames r).

(** The entries of the disposition map kept for one delivery identifier. *)
Definition recordsFor (d : Z) (r : Receiver) : list (Z * PromiseLike) :=
  filter (fun kv => fst kv = d) (map_to_list (_deliveryDispositionMap r)).

(** The invariant of the settlement state that every run keeps. *)
Record wf (r : Receiver) : Prop := mkWf {
  wf_record_timer : forall i pl,
    _deliveryDispositionMap r !! i = Some pl ->
    exists task, timers r !! timer pl = Some task
                 /\ task_delivery task = i /\ task_promise task = promise pl;
  wf_timer_fresh : forall t task,
    timers r !! t = Some task ->
    (t < nextTimer r)%nat /\ (task_promise task < nextPromise r)%nat
    /\ timesSettled (task_promise task) r = 0%nat;
  wf_timer_promise : forall t t' task task',
    timers r !! t = Some task -> timers r !! t' = Some task' ->
    task_promise task = task_promise task' -> t = t';
  wf_once : forall p, (timesSettled p r <= 1)%nat;
  wf_unborn : forall p, (nextPromise r <= p)%nat -> timesSettled p r = 0%nat
}.

(** Every pending timer waits for the one configured delay. *)
Definition fixedDelay (ext : Externals) (r : Receiver) : Prop :=
  forall t task, timers r !! t = Some task ->
                 task_delay task = messageDispositionTimeout ext.

End Settlement.

(* ===================================================================== *)
(** ** Message handling: [_onAmqpMessage] and its lock-renewal task       *)
(* ===================================================================== *)

(** enum [ReceiveMode]. *)
Inductive ReceiveMode := peekLock | receiveAndDelete.

Definition ReceiveMode_eqb (a b : ReceiveMode) : bool :=
  match a, b with
  | peekLock, peekLock => true
  | receiveAndDelete, receiveAndDelete => true
  | _, _ => false
  end.

Module Handling.

(** The fields of the receiver that [_onAmqpMessage] reads. *)
Record Config := mkConfig {
  receiveMode : ReceiveMode;
  autoComplete : bool;
  maxAutoRenewDurationInSeconds : Z;
  autoRenewLock : bool
}.

(** interface [ReceiveOptions], as far as the constructor reads it for these
    fields, and the constructor's defaults. *)
Record ReceiveOptions := mkReceiveOptions {
  opt_receiveMode : option ReceiveMode;
  opt_autoComplete : option bool;
  opt_maxAutoRenewDurationInSeconds : option Z
}.

Definition constructed (options : ReceiveOptions) : Config :=
  let mode := default peekLock (opt_receiveMode options) in
  let window := default 300 (opt_maxAutoRenewDurationInSeconds options) in
  mkConfig mode (default false (opt_autoComplete options)) window
    ((0 <? window) && ReceiveMode_eqb mode peekLock).

(** What was passed to [this._onError]: the renewal path passes what it
    caught, the settlement paths pass the translated error. *)
Inductive Reported :=
| AsCaught (e : Thrown)
| AsTranslated (e : MessagingError).

(** The calls one run of [_onAmqpMessage] makes on the outside. *)
Inductive Effect :=
| CallOnMessage
| SetTimeout (h : nat) (amount : Z)
| ClearTimeout (h : option nat)
| RenewLock
| Abandon
| Complete
| OnError (e : Reported).

(** Where the body of the async handler is suspended. *)
Inductive Phase :=
| AwaitOnMessage
| AwaitAbandon
| AwaitComplete
| Returned.

(** One run of [_onAmqpMessage]: its local variables [timer] and
    [continueExecution], the constant [totalAutoLockRenewDuration], the lock
    expiry of [bMessage], the [setTimeout] handles still pending, whether the
    [renewLock] call of the timer closure is outstanding, and the calls made
    so far. *)
Record Invocation := mkInvocation {
  continueExecution : bool;
  timer : option nat;
  pending : gset nat;
  renewing : bool;
  phase : Phase;
  lockedUntilUtc : Z;
  totalAutoLockRenewDuration : Z;
  effects : list Effect;
  nextHandle : nat
}.

Definition emit (es : list Effect) (s : Invocation) : Invocation :=
  mkInvocation (continueExecution s) (timer s) (pending s) (renewing s)
    (phase s) (lockedUntilUtc s) (totalAutoLockRenewDuration s)
    (effects s ++ es) (nextHandle s).

Definition suspendAt (ph : Phase) (s : Invocation) : Invocation :=
  mkInvocation (continueExecution s) (timer s) (pending s) (renewing s)
    ph (lockedUntilUtc s) (totalAutoLockRenewDuration s)
    (effects s) (nextHandle s).

(** What the event loop can deliver to a run: a timer handle becoming due,
    the outcome of the outstanding [renewLock] (the caught error, or the lock
    expiry the message holds afterwards), the outcome of the application
    handler, the outcome of the awaited [abandon()] or [complete()]. *)
Inductive Event :=
| TimerDue (h : nat) (now : Z)
| RenewLockSettled (result : Thrown + Z) (now : Z)
| OnMessageSettled (result : option Thrown)
| SettlementSettled (result : option Thrown).

Section WithExternals.
Context (ext : Externals) (cfg : Config).

(** The local function [autoRenewLockTask]. *)
Definition autoRenewLockTask (now : Z) (s : Invocation) : Invocation :=
  if (now <? totalAutoLockRenewDuration s) && continueExecution s then
    let amount := calculateRenewAfterDuration ext (lockedUntilUtc s) now in
    let h := nextHandle s in
    mkInvocation (continueExecution s) (Some h) ({[h]} ∪ pending s)
      (renewing s) (phase s) (lockedUntilUtc s)
      (totalAutoLockRenewDuration s)
      (effects s ++ [SetTimeout h amount]) (S h)
  else s.

(** The local function [clearTimerAndStopExecution]. *)
Definition clearTimerAndStopExecution (s : Invocation) : Invocation :=
  if autoRenewLock cfg then
    mkInvocation false (timer s)
      (match timer s with
       | Some h => pending s ∖ {[h]}
       | None => pending s
       end)
      (renewing s) (phase s) (lockedUntilUtc s)
      (totalAutoLockRenewDuration s)
      (effects s ++ [ClearTimeout (timer s)]) (nextHandle s)
  else s.

(** [_onAmqpMessage(context)] up to its first suspension, the [await] of the
    application handler.  [now] is what [Date.now()] returns during this
    run of the function (one reading per run of a callback), [lockedUntil]
    the lock expiry the message arrives with. *)
Definition _onAmqpMessage (now lockedUntil : Z) : Invocation :=
  let s0 := mkInvocation false None ∅ false AwaitOnMessage lockedUntil 0 []
              0%nat in
  let s1 :=
    if autoRenewLock cfg then
      autoRenewLockTask now
        (mkInvocation true None ∅ false AwaitOnMessage lockedUntil
           (now + maxAutoRenewDurationInSeconds cfg * 1000) [] 0%nat)
    else s0 in
  emit [CallOnMessage] s1.

(** The closure given to [setTimeout] by [autoRenewLockTask], up to its
    [await] of [renewLock]. *)
Definition timerFires (h : nat) (s : Invocation) : Invocation :=
  if bool_decide (h ∈ pending s) then
    mkInvocation (continueExecution s) (timer s) (pending s ∖ {[h]}) true
      (phase s) (lockedUntilUtc s) (totalAutoLockRenewDuration s)
      (effects s ++ [RenewLock]) (nextHandle s)
  else s.

(** The same closure after [renewLock] has settled. *)
Definition renewLockSettled (result : Thrown + Z) (now : Z) (s : Invocation)
    : Invocation :=
  if renewing s then
    match result with
    | inr expiry =>
        autoRenewLockTask now
          (mkInvocation (continueExecution s) (timer s) (pending s) false
             (phase s) expiry (totalAutoLockRenewDuration s) (effects s)
             (nextHandle s))
    | inl err =>
        mkInvocation (continueExecution s) (timer s) (pending s) false
          (phase s) (lockedUntilUtc s) (totalAutoLockRenewDuration s)
          (effects s ++ [OnError (AsCaught err)]) (nextHandle s)
    end
  else s.

(** The body of [_onAmqpMessage] after the application handler has settled,
    up to the next [await] or the return. *)
Definition onMessageSettled (result : option Thrown) (s : Invocation)
    : Invocation :=
  match phase s with
  | AwaitOnMessage =>
      let s1 := clearTimerAndStopExecution s in
      match result with
      | Some err =>
          let error := translate ext err in
          if negb (String.eqb (errName error) (messageLockLostName ext))
             && ReceiveMode_eqb (receiveMode cfg) peekLock
          then suspendAt AwaitAbandon (emit [Abandon] s1)
          else suspendAt Returned s1
      | None =>
          if autoComplete cfg && ReceiveMode_eqb (receiveMode cfg) peekLock
          then suspendAt AwaitComplete (emit [Complete] s1)
          else suspendAt Returned s1
      end
  | _ => s
  end.

(** The two inner [catch] blocks: the awaited settlement has settled. *)
Definition settlementSettled (result : option Thrown) (s : Invocation)
    : Invocation :=
  match phase s with
  | AwaitAbandon | AwaitComplete =>
      match result with
      | Some err =>
          suspendAt Returned
            (emit [OnError (AsTranslated (translate ext err))] s)
      | None => suspendAt Returned s
      end
  | _ => s
  end.

Definition step (e : Event) (s : Invocation) : Invocation :=
  match e with
  | TimerDue h _ => timerFires h s
  | RenewLockSettled result now => renewLockSettled result now s
  | OnMessageSettled result => onMessageSettled result s
  | SettlementSettled result => settlementSettled result s
  end.

Definition run (es : list Event) (s : Invocation) : Invocation :=
  fold_left (fun acc e => step e acc) es s.

End WithExternals.

Definition isSettlement (e : Effect) : bool :=
  match e with
  | Abandon | Complete => true
  | _ => false
  end.

Definition isOnError (e : Effect) : bool :=
  match e with
  | OnError _ => true
  | _ => false
  end.

(** What every state of a run satisfies. *)
Record inv (cfg : Config) (s : Invocation) : Prop := mkInv {
  inv_pending_timer : forall h, h ∈ pending s -> timer s = Some h;
  inv_done_stopped :
    phase s <> AwaitOnMessage -> continueExecution s = false /\ pending s = ∅;
  inv_renewing : renewing s = true -> pending s = ∅;
  inv_no_renewal :
    autoRenewLock cfg = false ->
    continueExecution s = false /\ pending s = ∅ /\ renewing s = false;
  inv_unsettled :
    phase s = AwaitOnMessage -> filter isSettlement (effects s) = []
}.

(** A run whose renewal has been stopped and whose handler has completed. *)
Definition stopped (s : Invocation) : Prop :=
  continueExecution s = false /\ pending s = ∅ /\ phase s <> AwaitOnMessage.

(** The renewal failures among the events of a run. *)
Definition renewalFailure (es : list Event) (e : Effect) : Prop :=
  exists c now, e = OnError (AsCaught c) /\ RenewLockSettled (inl c) now ∈ es.

End Handling.

(* ===================================================================== *)
(** ** Link lifecycle: [_init], [close], [detached], and the entity       *)
(** ** context's [detached]                                               *)
(* ===================================================================== *)

Module Lifecycle.

(** enum [ReceiverType]. *)
Inductive ReceiverType := batching | streaming.

(** The rhea-promise [Receiver] behind a handle, as far as [isOpen()] and
    [isClosed()] show it. *)
Record Link := mkLink {
  link_name : string;
  link_open : bool;
  link_closed : bool
}.

(** The fields of [MessageReceiver] (and of its base [LinkEntity]) that the
    lifecycle methods read or write.  [_receiver] holds a handle into the
    table of links, so that a link closed through one reference is seen
    closed through every other. *)
Record MessageReceiver := mkMessageReceiver {
  name : string;
  address : string;
  receiverType : ReceiverType;
  receiveMode : ReceiveMode;
  maxConcurrentCalls : Z;
  isConnecting : bool;
  _receiver : option nat;
  tokenRenewalTimer : option nat
}.

(** The part of [MessageSender] the entity context reads. *)
Record MessageSender := mkMessageSender {
  sender_name : string;
  sender_isConnecting : bool
}.

(** interface [ClientEntityContextBase]: the receiver slots hold references
    to receiver objects. *)
Record ClientEntityContext := mkClientEntityContext {
  entityPath : string;
  sender : option MessageSender;
  streamingReceiver : option nat;
  batchingReceiver : option nat
}.

(** interface [ReceiverOptions] of rhea-promise, without the handlers. *)
Record ReceiverOptions := mkReceiverOptions {
  opt_name : string;
  autoaccept : bool;
  rcv_settle_mode : Z;
  snd_settle_mode : Z;
  source_address : string;
  credit_window : Z
}.

(** Calls on collaborators, in the order made. *)
Inductive Effect :=
| CloseLink (this : nat) (link : option nat)
| RetryCalled (times : nat) (delayInSeconds : Z)
| InitCalled (this : nat) (options : option ReceiverOptions)
| NegotiateClaim (this : nat)
| CreateReceiver (this : nat) (options : ReceiverOptions)
| EnsureTokenRenewal (this : nat)
| Delay (seconds : Z)
| DetachedFailed (this : nat) (err : option MessagingError)
| SenderDetached (sender : string)
| ReceiverDetached (this : nat) (err : option Thrown).

(** The objects reachable from one entity context, the link table of the
    transport, a counter standing for the randomness behind generated names,
    and the calls made so far. *)
Record World := mkWorld {
  context : ClientEntityContext;
  receivers : gmap nat MessageReceiver;
  links : gmap nat Link;
  nextLink : nat;
  entropy : nat;
  effects : list Effect
}.

Definition emit (es : list Effect) (w : World) : World :=
  mkWorld (context w) (receivers w) (links w) (nextLink w) (entropy w)
    (effects w ++ es).

Definition setReceiver (this : nat) (r : MessageReceiver) (w : World) : World :=
  mkWorld (context w) (<[this := r]> (receivers w)) (links w) (nextLink w)
    (entropy w) (effects w).

Definition setContext (c : ClientEntityContext) (w : World) : World :=
  mkWorld c (receivers w) (links w) (nextLink w) (entropy w) (effects w).

Definition setConnecting (b : bool) (r : MessageReceiver) : MessageReceiver :=
  mkMessageReceiver (name r) (address r) (receiverType r) (receiveMode r)
    (maxConcurrentCalls r) b (_receiver r) (tokenRenewalTimer r).

Definition setLink (l : option nat) (r : MessageReceiver) : MessageReceiver :=
  mkMessageReceiver (name r) (address r) (receiverType r) (receiveMode r)
    (maxConcurrentCalls r) (isConnecting r) l (tokenRenewalTimer r).

Definition setName (n : string) (r : MessageReceiver) : MessageReceiver :=
  mkMessageReceiver n (address r) (receiverType r) (receiveMode r)
    (maxConcurrentCalls r) (isConnecting r) (_receiver r)
    (tokenRenewalTimer r).

Definition clearTokenRenewal (r : MessageReceiver) : MessageReceiver :=
  mkMessageReceiver (name r) (address r) (receiverType r) (receiveMode r)
    (maxConcurrentCalls r) (isConnecting r) (_receiver r) None.

(** [this._receiver && this._receiver.isOpen()], and the same with
    [isClosed()]; a handle without a link reads as neither. *)
Definition linkReads (f : Link -> bool) (w : World) (r : MessageReceiver)
    : bool :=
  match _receiver r with
  | Some h => match links w !! h with
              | Some l => f l
              | None => false
              end
  | None => false
  end.

Definition isOpen (w : World) (r : MessageReceiver) : bool :=
  linkReads link_open w r.

(** What one establishment attempt meets outside: [_negotiateClaim] rejects,
    [createReceiver] rejects, or the link opens and [_ensureTokenRenewal]
    then settles. *)
Inductive InitOutcome :=
| NegotiateClaimFails (e : Thrown)
| CreateReceiverFails (e : Thrown)
| Established (tokenRenewal : option Thrown).

(** Result of the retry orchestrator: the operation's success, or the last
    error it kept. *)
Inductive RetryResult :=
| RetryOk
| RetryFailed (lastError : option MessagingError).

(** Modelled from the spec: [LinkEntity._closeLink] of
    [lib/core/linkEntity.ts], which is not among the source files.  The close
    protocol of the spec: stop the pending token-renewal timer, close the
    link (and its session) if there is one; no failure is described. *)
Definition _closeLink (this : nat) (link : option nat) (w : World) : World :=
  let rs :=
    match receivers w !! this with
    | Some r => <[this := clearTokenRenewal r]> (receivers w)
    | None => receivers w
    end in
  let ls :=
    match link with
    | Some h =>
        match links w !! h with
        | Some l => <[h := mkLink (link_name l) false true]> (links w)
        | None => links w
        end
    | None => links w
    end in
  mkWorld (context w) rs ls (nextLink w) (entropy w)
    (effects w ++ [CloseLink this link]).

(** [_deleteFromCache()]. *)
Definition _deleteFromCache (this : nat) (w : World) : World :=
  match receivers w !! this with
  | None => w
  | Some r =>
      let c := context w in
      let c' :=
        match receiverType r with
        | streaming =>
            mkClientEntityContext (entityPath c) (sender c) None
              (batchingReceiver c)
        | batching =>
            mkClientEntityContext (entityPath c) (sender c)
              (streamingReceiver c) None
        end in
      setContext c' (setReceiver this (setLink None r) w)
  end.

(** [close()]. *)
Definition close (this : nat) (w : World) : World :=
  match receivers w !! this with
  | None => w
  | Some r =>
      match _receiver r with
      | Some receiverLink =>
          _closeLink this (Some receiverLink) (_deleteFromCache this w)
      | None => w
      end
  end.

(** The registration at the end of a successful establishment in [_init]. *)
Definition register (this : nat) (ty : ReceiverType) (c : ClientEntityContext)
    : ClientEntityContext :=
  match ty, streamingReceiver c, batchingReceiver c with
  | streaming, None, _ =>
      mkClientEntityContext (entityPath c) (sender c) (Some this)
        (batchingReceiver c)
  | batching, _, None =>
      mkClientEntityContext (entityPath c) (sender c) (streamingReceiver c)
        (Some this)
  | _, _, _ => c
  end.

Section WithExternals.
Context (ext : Externals).

(** The options object [_createReceiverOptions] returns for a receiver. *)
Definition receiverOptions (r : MessageReceiver) : ReceiverOptions :=
  mkReceiverOptions (name r) false
    (match receiveMode r with receiveAndDelete => 0 | peekLock => 1 end)
    (match receiveMode r with receiveAndDelete => 1 | peekLock => 0 end)
    (address r) (maxConcurrentCalls r).

(** [_createReceiverOptions(options)]: with [newName] the receiver is renamed
    first. *)
Definition _createReceiverOptions (this : nat) (newName : bool) (w : World)
    : World * option ReceiverOptions :=
  match receivers w !! this with
  | None => (w, None)
  | Some r =>
      if newName then
        let r' := setName (getUniqueName ext (entityPath (context w))
                             (entropy w)) r in
        (mkWorld (context w) (<[this := r']> (receivers w)) (links w)
           (nextLink w) (S (entropy w)) (effects w),
         Some (receiverOptions r'))
      else (w, Some (receiverOptions r))
  end.

(** [_init(options)].  The result says whether the call resolved ([None]) or
    rejected with the translated error.  The timer that [_ensureTokenRenewal]
    of [LinkEntity] arms is not represented. *)
Definition _init (this : nat) (options : option ReceiverOptions)
    (outcome : InitOutcome) (w : World) : World * option MessagingError :=
  let w := emit [InitCalled this options] w in
  match receivers w !! this with
  | None => (w, None)
  | Some r =>
      if negb (isOpen w r) && negb (isConnecting r) then
        (* the [catch] block: [isConnecting = false], translate, rethrow *)
        let failed (w' : World) (err : Thrown) :=
          match receivers w' !! this with
          | Some r' =>
              (setReceiver this (setConnecting false r') w',
               Some (translate ext err))
          | None => (w', Some (translate ext err))
          end in
        let negotiating :=
          emit [NegotiateClaim this]
            (setReceiver this (setConnecting true r) w) in
        let options :=
          match options with
          | Some o => o
          | None => receiverOptions r
          end in
        let creating := emit [CreateReceiver this options] negotiating in
        match outcome with
        | NegotiateClaimFails err => failed negotiating err
        | CreateReceiverFails err => failed creating err
        | Established tokenRenewal =>
            let h := nextLink creating in
            let opened :=
              mkMessageReceiver (name r) (address r) (receiverType r)
                (receiveMode r) (maxConcurrentCalls r) false (Some h)
                (tokenRenewalTimer r) in
            let established :=
              mkWorld (register this (receiverType r) (context creating))
                (<[this := opened]> (receivers creating))
                (<[h := mkLink (opt_name options) true false]>
                   (links creating))
                (S h) (entropy creating)
                (effects creating ++ [EnsureTokenRenewal this]) in
            match tokenRenewal with
            | Some err => failed established err
            | None => (established, None)
            end
        end
      else (w, None)
  end.

(** Modelled from the spec: the retry orchestrator [retry] of
    @azure/amqp-common, which the repository imports.  It invokes the
    operation; a success is returned at once; a failure that is not retryable
    ends the loop; after a retryable failure it waits [delayInSeconds] and
    goes on, for at most [times] invocations; when it gives up it returns the
    last error. *)
Fixpoint retryLoop (operation : nat -> World -> World * option MessagingError)
    (delayInSeconds : Z) (attempt remaining : nat)
    (lastError : option MessagingError) (w : World) : World * RetryResult :=
  match remaining with
  | O => (w, RetryFailed lastError)
  | S k =>
      match operation attempt w with
      | (w1, None) => (w1, RetryOk)
      | (w1, Some err) =>
          if retryable err then
            retryLoop operation delayInSeconds (S attempt) k (Some err)
              (emit [Delay delayInSeconds] w1)
          else (w1, RetryFailed (Some err))
      end
  end.

Definition retry (operation : nat -> World -> World * option MessagingError)
    (times : nat) (delayInSeconds : Z) (w : World) : World * RetryResult :=
  retryLoop operation delayInSeconds 0%nat times None
    (emit [RetryCalled times delayInSeconds] w).

(** [const wasCloseInitiated = this._receiver && this._receiver.isClosed()]. *)
Definition wasCloseInitiated (w : World) (r : MessageReceiver) : bool :=
  linkReads link_closed w r.

(** The value of [shouldReopen] when [detached] reaches [if (shouldReopen)]. *)
Definition shouldReopen (receiverError : option Thrown) (closeInitiated : bool)
    : bool :=
  match receiverError with
  | Some err =>
      if negb closeInitiated then retryable (translate ext err)
      else if negb closeInitiated then true
      else false
  | None =>
      if negb closeInitiated then true
      else false
  end.

(** [detached(receiverError)].  [outcomes] says what the n-th establishment
    attempt of this call meets. *)
Definition detached (this : nat) (receiverError : option Thrown)
    (outcomes : nat -> InitOutcome) (w : World) : World :=
  match receivers w !! this with
  | None => w
  | Some r =>
      let closeInitiated := wasCloseInitiated w r in
      let w1 := _closeLink this (_receiver r) w in
      if shouldReopen receiverError closeInitiated then
        match _createReceiverOptions this true w1 with
        | (w2, options) =>
            match retry (fun n => _init this options (outcomes n))
                    (defaultConnectionRetryAttempts ext) 15 w2 with
            | (w3, RetryOk) => w3
            | (w3, RetryFailed err) => emit [DetachedFailed this err] w3
            end
        end
      else w1
  end.

(** The [detached] member that [ClientEntityContext.create] installs: three
    blocks, for the sender, the batching receiver and the streaming receiver.
    As in the source, the third block takes its receiver from
    [entityContext.batchingReceiver].  The sender is not among the source
    files: its [detached()] is recorded as a call.  [first] and [second] say
    what the establishment attempts of the two receiver calls meet. *)
Definition contextDetached (error : option Thrown)
    (first second : nat -> InitOutcome) (w : World) : World :=
  let w1 :=
    match sender (context w) with
    | Some s =>
        if negb (sender_isConnecting s)
        then emit [SenderDetached (sender_name s)] w
        else w
    | None => w
    end in
  let w2 :=
    match batchingReceiver (context w1) with
    | Some b =>
        match receivers w1 !! b with
        | Some r =>
            if negb (isConnecting r)
            then detached b error first (emit [ReceiverDetached b error] w1)
            else w1
        | None => w1
        end
    | None => w1
    end in
  match batchingReceiver (context w2) with
  | Some b =>
      match receivers w2 !! b with
      | Some r =>
          if negb (isConnecting r)
          then detached b error second (emit [ReceiverDetached b error] w2)
          else w2
      | None => w2
      end
  | None => w2
  end.

End WithExternals.

(** The receiver whose [detached] a call of the entity context enters. *)
Definition detachedCalls (e : Effect) : option nat :=
  match e with
  | ReceiverDetached this _ => Some this
  | _ => None
  end.

(** The calls made on the way from one world to a later one. *)
Definition callsSince (w w' : World) : list Effect :=
  drop (length (effects w)) (effects w').

(** The slot of the entity context for a receiver role. *)
Definition slot (ty : ReceiverType) (c : ClientEntityContext) : option nat :=
  match ty with
  | streaming => streamingReceiver c
  | batching => batchingReceiver c
  end.

Definition otherRole (ty : ReceiverType) : ReceiverType :=
  match ty with
  | streaming => batching
  | batching => streaming
  end.

(** The error of an attempt that ends before a link exists. *)
Definition refused (o : InitOutcome) : option Thrown :=
  match o with
  | NegotiateClaimFails e => Some e
  | CreateReceiverFails e => Some e
  | Established _ => None
  end.

Definition isInitCalled (e : Effect) : bool :=
  match e with
  | InitCalled _ _ => true
  | _ => false
  end.

(** The calls of establishment attempts for one receiver under given options
    and a given delay between attempts. *)
Definition establishing (this : nat) (options : ReceiverOptions) (delay : Z)
    (e : Effect) : Prop :=
  e = InitCalled this (Some options) \/ e = NegotiateClaim this
  \/ e = CreateReceiver this options \/ e = EnsureTokenRenewal this
  \/ e = Delay delay.

(** A receiver that [_init] will try to connect. *)
Definition idle (w : World) (r : MessageReceiver) : Prop :=
  isOpen w r = false /\ isConnecting r = false.

End Lifecycle.

(* ===================================================================== *)
(** ** The close and error handlers set up by the constructor             *)
(* ===================================================================== *)

Module Handlers.
Import Lifecycle.

(** The part of rhea's [EventContext] these handlers read: [context.receiver]
    (a link handle) with its [error], and [context.session] with its. *)
Record EventContext := mkEventContext {
  ctx_receiver : option (nat * option Thrown);
  ctx_session : option (option Thrown)
}.

(** [context.receiver && context.receiver.error]. *)
Definition receiverError (c : EventContext) : option Thrown :=
  match ctx_receiver c with
  | Some (_, e) => e
  | None => None
  end.


(** [this._receiver || context.receiver!]. *)
Definition eventReceiver (r : MessageReceiver) (c : EventContext)
    : option nat :=
  match _receiver r with
  | Some h => Some h
  | None => fst <$> ctx_receiver c
  end.

(** A reading such as [receiver.isClosed()] on a link handle; as in
    [linkReads], a handle without a link reads false. *)
Definition handleReads (f : Link -> bool) (w : World) (h : nat) : bool :=
  match links w !! h with
  | Some l => f l
  | None => false
  end.

Section WithExternals.
Context (ext : Externals).

(** [_onAmqpError(context)].  The result is what [this._onError] was called
    with, [None] when it was not called. *)
Definition _onAmqpError (this : nat) (context : EventContext) (w : World)
    : option MessagingError :=
  match receivers w !! this with
  | None => None
  | Some r =>
      match receiverError context with
      | Some e =>
          let sbError := translate ext e in
          if negb (retryable sbError) then
            match eventReceiver r context with
            | Some h =>
                if negb (handleReads link_closed w h) then Some sbError
                else None
            | None => None
            end
          else None
      | None => None
      end
  end.


(** [_onAmqpClose(context)]: [detached] is awaited when the receiver is not
    closed and is not already connecting. *)
Definition _onAmqpClose (this : nat) (context : EventContext)
    (outcomes : nat -> InitOutcome) (w : World) : World :=
  match receivers w !! this with
  | None => w
  | Some r =>
      match eventReceiver r context with
      | Some h =>
          if negb (handleReads link_closed w h) then
            if negb (isConnecting r) then
              detached ext this (receiverError context) outcomes
                (emit [ReceiverDetached this (receiverError context)] w)
            else w
          else w
      | None => w
      end
  end.


End WithExternals.

End Handlers.

(* ===================================================================== *)
(** ** [ClientEntityContext.create], [getReceiver], [getManagementClient] *)
(* ===================================================================== *)

Module EntityContext.
Import Lifecycle.

(** A JavaScript value, as far as [!v] and [typeof v] tell values apart;
    an object carries what the code reads from it. *)
Inductive JsValue (O : Type) :=
| JsUndefined
| JsNull
| JsBoolean (b : bool)
| JsNumber (z : Z)
| JsString (s : string)
| JsObject (o : O)
| JsFunction.

Arguments JsUndefined {O}.
Arguments JsNull {O}.
Arguments JsBoolean {O} b.
Arguments JsNumber {O} z.
Arguments JsString {O} s.
Arguments JsObject {O} o.
Arguments JsFunction {O}.

(** [!v]. *)
Definition falsy {O : Type} (v : JsValue O) : bool :=
  match v with
  | JsUndefined | JsNull => true
  | JsBoolean b => negb b
  | JsNumber z => z =? 0
  | JsString s => String.eqb s EmptyString
  | JsObject _ | JsFunction => false
  end.

(** [typeof v]. *)
Definition typeof {O : Type} (v : JsValue O) : string :=
  match v with
  | JsUndefined => "undefined"
  | JsNull => "object"
  | JsBoolean _ => "boolean"
  | JsNumber _ => "number"
  | JsString _ => "string"
  | JsObject _ => "object"
  | JsFunction => "function"
  end.

(** A client of the connection, as [getManagementClient] reads it: its
    [name] and the management client of its entity context, a reference. *)
Record Client := mkClient {
  client_name : string;
  client_managementClient : option nat
}.

(** [ConnectionContext]: the dictionary [clients], in the order
    [Object.keys] lists it. *)
Record ConnectionContext := mkConnectionContext {
  clients : list (string * Client)
}.

Record ClientEntityContextOptions := mkClientEntityContextOptions {
  managementClientAddress : option string;
  managementClientAudience : option string
}.

Record ManagementClientOptions := mkManagementClientOptions {
  mc_address : string;
  mc_audience : option string
}.

(** The management client of a new entity context: one that a client of
    the connection already holds, or a new object built from options. *)
Inductive ManagementClientRef :=
| Shared (client : nat)
| Created (options : ManagementClientOptions).

Inductive CreateResult :=
| Threw (message : string)
| Made (c : ClientEntityContext) (managementClient : ManagementClientRef).

(** [getManagementClient(clients, name)]: the loop over [Object.keys], left
    at the first client of that name. *)
Fixpoint getManagementClient (clients : list (string * Client))
    (name : string) : option nat :=
  match clients with
  | [] => None
  | (_, c) :: rest =>
      if String.eqb (client_name c) name then client_managementClient c
      else getManagementClient rest name
  end.

(** [ClientEntityContext.create(entityPath, context, options)]. *)
Definition create (entityPath : JsValue unit)
    (context : JsValue ConnectionContext)
    (options : option ClientEntityContextOptions) : CreateResult :=
  if falsy entityPath || negb (String.eqb (typeof entityPath) "string") then
    Threw "'entityPath' is a required parameter and must be of type 'string'."
  else if falsy context || negb (String.eqb (typeof context) "object") then
    Threw "'context' is a required parameter and must be of type 'object'."
  else
    let path := match entityPath with JsString s => s | _ => EmptyString end in
    let connection :=
      match context with
      | JsObject c => c
      | _ => mkConnectionContext []
      end in
    let options :=
      match options with
      | Some o => o
      | None => mkClientEntityContextOptions None None
      end in
    let entityContext := mkClientEntityContext path None None None in
    match getManagementClient (clients connection) path with
    | Some m => Made entityContext (Shared m)
    | None =>
        Made entityContext
          (Created
             (mkManagementClientOptions
                (if truthy (managementClientAddress options)
                 then default EmptyString (managementClientAddress options)
                 else String.append path "/$management")
                (managementClientAudience options)))
    end.

(** [slot && slot.name === name], for a slot of the entity context. *)
Definition named (n : string) (w : World) (held : option nat) : bool :=
  match held with
  | Some x =>
      match receivers w !! x with
      | Some r => String.eqb (name r) n
      | None => false
      end
  | None => false
  end.

(** The [getReceiver] member that [create] installs. *)
Definition getReceiver (n : string) (w : World) : option nat :=
  if named n w (streamingReceiver (context w)) then
    streamingReceiver (context w)
  else if named n w (batchingReceiver (context w)) then
    batchingReceiver (context w)
  else None.

End EntityContext.

(* ===================================================================== *)
(** ** Notions used to state further properties of the runs               *)
(* ===================================================================== *)

Module SettlementAux.
Import Settlement.

(** The frame a call sends, read off the event. *)
Definition sentFrame (e : Event) : option Frame :=
  match e with
  | CallSettle d op o =>
      dispositionFrame d op
        (match o with
         | Some o' => o'
         | None => mkDispositionOptions None None
         end)
  | _ => None
  end.

(** A [settleMessage] call with a recognised operation. *)
Definition recognisedCall (e : Event) : bool :=
  match e with
  | CallSettle _ op _ => matchesOperation op
  | _ => false
  end.

(** A pending timer will resolve the promise. *)
Definition awaited (p : nat) (r : Receiver) : Prop :=
  exists t task, timers r !! t = Some task /\ task_promise task = p.

(** Every promise handed out is settled or awaited. *)
Definition accounted (r : Receiver) : Prop :=
  forall p, (p < nextPromise r)%nat ->
            timesSettled p r = 1%nat \/ awaited p r.
End SettlementAux.

Module HandlingAux.
Import Handling.

(** A report of a failed [abandon()] or [complete()]. *)
Definition isTranslatedReport (e : Effect) : bool :=
  match e with
  | OnError (AsTranslated _) => true
  | _ => false
  end.

(** The calls of the lock renewal: on timers and on [renewLock]. *)
Definition isRenewalActivity (e : Effect) : bool :=
  match e with
  | SetTimeout _ _ | ClearTimeout _ | RenewLock => true
  | _ => false
  end.

(** A renewal that goes on: a timer set, or [renewLock] called. *)
Definition isRenewalCall (e : Effect) : bool :=
  match e with
  | SetTimeout _ _ | RenewLock => true
  | _ => false
  end.

(** A [setTimeout] of the renewal. *)
Definition isTimerSet (e : Effect) : bool :=
  match e with
  | SetTimeout _ _ => true
  | _ => false
  end.

(** A call of [renewLock]. *)
Definition isRenewLock (e : Effect) : bool :=
  match e with
  | RenewLock => true
  | _ => false
  end.

(** No timer is pending and no [renewLock] is outstanding. *)
Definition quiet (s : Invocation) : Prop :=
  pending s = ∅ /\ renewing s = false.

(** How many settlements and reports of failed settlements a run has made,
    by where the handler stands. *)
Definition settledBy (s : Invocation) : Prop :=
  let issued := length (filter isSettlement (effects s)) in
  let reported := length (filter isTranslatedReport (effects s)) in
  match phase s with
  | AwaitOnMessage => issued = 0%nat /\ reported = 0%nat
  | AwaitAbandon | AwaitComplete => issued = 1%nat /\ reported = 0%nat
  | Returned => (reported <= issued <= 1)%nat
  end.

(** The counts of timers set and of [renewLock] calls. *)
Definition alternating (s : Invocation) : Prop :=
  let timersSet := length (filter isTimerSet (effects s)) in
  let renewals := length (filter isRenewLock (effects s)) in
  (renewing s = true -> timersSet = renewals)
  /\ (pending s <> ∅ -> timersSet = S renewals)
  /\ (renewals <= timersSet <= S renewals)%nat.
End HandlingAux.

Module LifecycleAux.
Import Lifecycle.

(** The receiver object after a link has been created for it. *)
Definition opened (h : nat) (r : MessageReceiver) : MessageReceiver :=
  setLink (Some h) (setConnecting false r).

(** Calls of [_init] on one receiver made one after another, each with its
    options and with what its establishment attempt would meet outside; the
    result of each call is kept. *)
Fixpoint initEach (ext : Externals) (this : nat)
    (calls : list (option ReceiverOptions * InitOutcome)) (w : World)
    : World * list (option MessagingError) :=
  match calls with
  | [] => (w, [])
  | (options, outcome) :: rest =>
      match _init ext this options outcome w with
      | (w1, result) =>
          match initEach ext this rest w1 with
          | (w2, results) => (w2, result :: results)
          end
      end
  end.

(** What a call on receiver [this] of role [ty] may do to the entity
    context: nothing, or fill the empty slot of that role with [this]. *)
Definition registrationKept (this : nat) (ty : ReceiverType)
    (c c' : ClientEntityContext) : Prop :=
  slot (otherRole ty) c' = slot (otherRole ty) c
  /\ sender c' = sender c
  /\ entityPath c' = entityPath c
  /\ (slot ty c' = slot ty c \/ (slot ty c = None /\ slot ty c' = Some this)).
End LifecycleAux.

Module HandlersAux.
Import Lifecycle Handlers.

(** An error that does not stand in the way of reconnecting: none, or a
    retryable one. *)
Definition tolerable (ext : Externals) (err : option Thrown) : Prop :=
  match err with
  | None => True
  | Some e => retryable (translate ext e) = true
  end.

(** The handler has a link to look at, and it is not closed. *)
Definition live (w : World) (r : MessageReceiver) (c : EventContext) : Prop :=
  exists h, eventReceiver r c = Some h /\ handleReads link_closed w h = false.


(** The retry orchestrator was called. *)
Definition retried (calls : list Effect) : Prop :=
  exists times delay, RetryCalled times delay ∈ calls.
End HandlersAux.

(* ===================================================================== *)
(** ** A sample instance of the library functions, for the examples       *)
(* ===================================================================== *)

(** A translation in the manner of amqp-common: the condition decides the
    name and whether the error is retryable; a JavaScript error keeps its
    name. *)
Definition sampleTranslate (e : Thrown) : MessagingError :=
  match e with
  | AmqpFault a =>
      let c := default ""%string (condition a) in
      mkMessagingError
        (if String.eqb c "com.microsoft:message-lock-lost"
         then "MessageLockLostError"%string
         else if String.eqb c "amqp:connection:forced"
         then "ConnectionForcedError"%string
         else "MessagingError"%string)
        (String.eqb c "amqp:connection:forced")
        (default ""%string (description a))
  | JsError n m => mkMessagingError n false m
  end.

Definition sampleExternals : Externals :=
  mkExternals sampleTranslate "MessageLockLostError" 20000 3%nat
    (fun path n => String.append path (String.append "-" (pretty n)))
    (fun lockedUntil now => Z.max 0 (lockedUntil - now - 10000)).

(* ===================================================================== *)
(** ** Facts about settlement *)
(* ===================================================================== *)

Module SettlementFacts.
Import Settlement.

(** The regular expression accepts exactly the names of the enum. *)
Lemma matchesOperation_names op :
  matchesOperation op = true <-> exists k, op = dispositionName k.
Proof.
  unfold matchesOperation. split.
  - intros H. repeat (apply orb_prop in H; destruct H as [H|H]);
      apply String.eqb_eq in H; subst.
    + by exists complete.
    + by exists abandon.
    + by exists defer.
    + by exists deadletter.
  - intros [[] ->]; reflexivity.
Qed.

(** A recognised operation sends one frame, for the delivery given. *)
Lemma dispositionFrame_recognised d op o :
  matchesOperation op = true ->
  exists f, dispositionFrame d op o = Some f /\ frame_delivery f = id d.
Proof.
  intros H. apply matchesOperation_names in H as [[] ->];
    unfold dispositionFrame; simpl; eauto.
Qed.

Lemma count_snoc (p q : nat) (o : Outcome) (l : list (nat * Outcome)) :
  length (filter (fun x => fst x = p) (l ++ [(q, o)]))
  = (length (filter (fun x => fst x = p) l)
     + if decide (q = p) then 1 else 0)%nat.
Proof.
  rewrite filter_app, length_app. f_equal.
  rewrite filter_cons. simpl. destruct (decide (q = p)); reflexivity.
Qed.

(** The invariant holds at the start and is kept by every transition. *)
Lemma wf_new : wf newReceiver.
Proof.
  split; unfold newReceiver; simpl; intros.
  - rewrite lookup_empty in H. discriminate.
  - rewrite lookup_empty in H. discriminate.
  - rewrite lookup_empty in H. discriminate.
  - unfold timesSettled. simpl. lia.
  - reflexivity.
Qed.

Section Preservation.
Context (ext : Externals).

Lemma wf_settleMessage d op o r :
  wf r -> wf (fst (settleMessage ext d op o r)).
Proof.
  intros [W1 W2 W3 W4 W5]. unfold settleMessage.
  destruct (matchesOperation op); simpl.
  - split; simpl.
    + intros i pl H. destruct (decide (id d = i)) as [Heq|Hne].
      * subst i. rewrite lookup_insert_eq in H. inversion H; subst; simpl.
        rewrite lookup_insert_eq. eauto.
      * rewrite lookup_insert_ne in H by done.
        destruct (W1 _ _ H) as (task & Ht & ? & ?).
        destruct (W2 _ _ Ht) as (Hlt & _).
        rewrite lookup_insert_ne by lia. eauto.
    + intros t task H. unfold timesSettled; simpl.
      destruct (decide (nextTimer r = t)) as [<-|Hne].
      * rewrite lookup_insert_eq in H. inversion H; subst; simpl.
        repeat split; try lia. apply W5. lia.
      * rewrite lookup_insert_ne in H by done.
        destruct (W2 _ _ H) as (? & ? & ?). repeat split; try lia. done.
    + intros t t' task task' H H' Heq.
      destruct (decide (nextTimer r = t)) as [<-|Hne];
        destruct (decide (nextTimer r = t')) as [<-|Hne']; try done.
      * rewrite lookup_insert_eq in H. rewrite lookup_insert_ne in H' by done.
        inversion H; subst; simpl in *.
        destruct (W2 _ _ H') as (? & ? & ?). lia.
      * rewrite lookup_insert_eq in H'. rewrite lookup_insert_ne in H by done.
        inversion H'; subst; simpl in *.
        destruct (W2 _ _ H) as (? & ? & ?). lia.
      * rewrite lookup_insert_ne in H, H' by done. eauto.
    + intros p. apply W4.
    + intros p Hp. apply W5. lia.
  - split; simpl; unfold timesSettled; simpl.
    + exact W1.
    + intros t task H. destruct (W2 _ _ H) as (? & ? & ?).
      repeat split; try lia. rewrite count_snoc.
      destruct (decide _); [lia|]. unfold timesSettled in *. lia.
    + exact W3.
    + intros p. rewrite count_snoc. destruct (decide _) as [<-|].
      * specialize (W5 (nextPromise r)). unfold timesSettled in W5.
        rewrite W5 by lia. lia.
      * specialize (W4 p). unfold timesSettled in W4. lia.
    + intros p Hp. rewrite count_snoc. destruct (decide _); [lia|].
      specialize (W5 p). unfold timesSettled in W5. rewrite W5 by lia. lia.
Qed.

Lemma wf_timeoutFires t r : wf r -> wf (timeoutFires t r).
Proof.
  intros [W1 W2 W3 W4 W5]. unfold timeoutFires.
  destruct (timers r !! t) as [task|] eqn:Ht; [|by split].
  destruct (W2 _ _ Ht) as (Hlt & Hp & H0).
  split; simpl; unfold timesSettled; simpl.
  - intros i pl H. apply lookup_delete_Some in H as [Hne H].
    destruct (W1 _ _ H) as (task' & Ht' & Hd & Hpp).
    exists task'. split; [|done].
    rewrite lookup_delete_ne; [done|]. intros ->. congruence.
  - intros t' task' H. apply lookup_delete_Some in H as [Hne H].
    destruct (W2 _ _ H) as (? & ? & ?). repeat split; try lia.
    rewrite count_snoc. destruct (decide _) as [Heq|].
    + exfalso. apply Hne. by eapply W3.
    + unfold timesSettled in *. lia.
  - intros t1 t2 task1 task2 H1 H2.
    apply lookup_delete_Some in H1 as [_ H1].
    apply lookup_delete_Some in H2 as [_ H2]. eauto.
  - intros p. rewrite count_snoc. destruct (decide _) as [<-|].
    + unfold timesSettled in H0. lia.
    + specialize (W4 p). unfold timesSettled in W4. lia.
  - intros p Hp'. rewrite count_snoc. destruct (decide _); [lia|].
    specialize (W5 p). unfold timesSettled in W5. rewrite W5 by lia. lia.
Qed.

Lemma wf_onSettled d r : wf r -> wf (_onSettled ext d r).
Proof.
  intros [W1 W2 W3 W4 W5]. unfold _onSettled.
  destruct d as [d|]; [|by split].
  destruct (remote_settled d); [|by split].
  destruct (_deliveryDispositionMap r !! id d) as [pl|] eqn:Hm; [|by split].
  destruct (W1 _ _ Hm) as (task & Ht & Hd & Hpp).
  destruct (W2 _ _ Ht) as (Hlt & Hp & H0).
  split; simpl; unfold timesSettled; simpl.
  - intros i pl' H. apply lookup_delete_Some in H as [Hne H].
    destruct (W1 _ _ H) as (task' & Ht' & Hd' & Hpp').
    exists task'. split; [|done].
    rewrite lookup_delete_ne; [done|]. intros Heq. rewrite Heq in Ht.
    congruence.
  - intros t' task' H. apply lookup_delete_Some in H as [Hne H].
    destruct (W2 _ _ H) as (? & ? & ?). repeat split; try lia.
    rewrite count_snoc. destruct (decide _) as [Heq|].
    + exfalso. apply Hne. eapply W3; eauto. congruence.
    + unfold timesSettled in *. lia.
  - intros t1 t2 task1 task2 H1 H2.
    apply lookup_delete_Some in H1 as [_ H1].
    apply lookup_delete_Some in H2 as [_ H2]. eauto.
  - intros p. rewrite count_snoc. destruct (decide _) as [<-|].
    + unfold timesSettled in H0. rewrite <- Hpp. lia.
    + specialize (W4 p). unfold timesSettled in W4. lia.
  - intros p Hp'. rewrite count_snoc. destruct (decide _); [lia|].
    specialize (W5 p). unfold timesSettled in W5. rewrite W5 by lia. lia.
Qed.

Lemma wf_step e r : wf r -> wf (step ext e r).
Proof.
  destruct e; simpl; auto using wf_settleMessage, wf_timeoutFires, wf_onSettled.
Qed.

Lemma wf_run es r : wf r -> wf (run ext es r).
Proof.
  revert r. induction es as [|e es IH]; intros r H; simpl; [done|].
  apply IH, wf_step, H.
Qed.

End Preservation.

Section Runs.
Context (ext : Externals).

Lemma fixedDelay_step e r :
  fixedDelay ext r -> fixedDelay ext (step ext e r).
Proof.
  intros F. destruct e as [d op o|d|t]; unfold fixedDelay; simpl.
  - unfold settleMessage. destruct (negb (matchesOperation op)); simpl; [done|].
    intros t task H. destruct (decide (nextTimer r = t)) as [Heq|Hne].
    + subst t. rewrite lookup_insert_eq in H. by inversion H.
    + rewrite lookup_insert_ne in H by done. eauto.
  - unfold _onSettled. destruct d as [d|]; [|done].
    destruct (remote_settled d); [|done].
    destruct (_ !! id d); [|done].
    simpl. intros t task H. apply lookup_delete_Some in H as [_ H]. eauto.
  - unfold timeoutFires. destruct (timers r !! t) eqn:E; [|done].
    simpl. intros t' task H. apply lookup_delete_Some in H as [_ H]. eauto.
Qed.

Lemma fixedDelay_run es r :
  fixedDelay ext r -> fixedDelay ext (run ext es r).
Proof.
  revert r. induction es as [|e es IH]; intros r H; simpl; [done|].
  apply IH, fixedDelay_step, H.
Qed.

(** Calls of promise callbacks are only ever added. *)
Lemma settlements_step e r :
  exists tail, settlements (step ext e r) = settlements r ++ tail.
Proof.
  destruct e as [d op o|d|t]; simpl.
  - unfold settleMessage. destruct (negb (matchesOperation op)); simpl.
    + eauto.
    + exists []. by rewrite app_nil_r.
  - unfold _onSettled. destruct d as [d|]; [|exists []; by rewrite app_nil_r].
    destruct (remote_settled d); [|exists []; by rewrite app_nil_r].
    destruct (_ !! id d); [|exists []; by rewrite app_nil_r].
    simpl. eauto.
  - unfold timeoutFires. destruct (timers r !! t);
      [simpl; eauto|exists []; by rewrite app_nil_r].
Qed.

Lemma timesSettled_step p e r :
  (timesSettled p r <= timesSettled p (step ext e r))%nat.
Proof.
  destruct (settlements_step e r) as [tail H]. unfold timesSettled.
  rewrite H, filter_app, length_app. lia.
Qed.

Lemma timesSettled_run p es r :
  (timesSettled p r <= timesSettled p (run ext es r))%nat.
Proof.
  revert r. induction es as [|e es IH]; intros r; simpl; [lia|].
  etrans; [apply (timesSettled_step p e)|apply IH].
Qed.

(** A promise settled once stays settled once. *)
Lemma settled_once_for_good p es r :
  wf r -> timesSettled p r = 1%nat -> timesSettled p (run ext es r) = 1%nat.
Proof.
  intros W H. pose proof (timesSettled_run p es r).
  pose proof (wf_once _ (wf_run ext es r W) p). lia.
Qed.

Lemma wf_reachable es : wf (run ext es newReceiver).
Proof. apply wf_run, wf_new. Qed.

End Runs.

(** The entries of a map, listed, hold each key once. *)
Lemma filter_key_absent (i : Z) (l : list (Z * PromiseLike)) :
  i ∉ l.*1 -> filter (fun kv : Z * PromiseLike => kv.1 = i) l = [].
Proof.
  induction l as [|[k v] l IH]; simpl; intros H; [done|].
  rewrite not_elem_of_cons in H. destruct H as [Hne H].
  rewrite filter_cons_False by (simpl; congruence). by apply IH.
Qed.

Lemma filter_key_NoDup (i : Z) (l : list (Z * PromiseLike)) :
  NoDup l.*1 ->
  (length (filter (fun kv : Z * PromiseLike => kv.1 = i) l) <= 1)%nat.
Proof.
  induction l as [|[k v] l IH]; simpl; intros N; [lia|].
  inversion N as [|? ? Hk N']; subst.
  destruct (decide (k = i)) as [->|Hne].
  - rewrite filter_cons_True by done. rewrite filter_key_absent by done.
    simpl. lia.
  - rewrite filter_cons_False by done. by apply IH.
Qed.

Lemma recordsFor_at_most_one (i : Z) (r : Receiver) :
  (length (recordsFor i r) <= 1)%nat.
Proof. apply filter_key_NoDup, NoDup_fst_map_to_list. Qed.

(** Claim C1, as amended.  The disposition map never holds more than one
    record for a delivery identifier.  A [settleMessage] call with a
    recognised operation, made in any reachable state for a delivery that
    already has a pending record, is neither rejected nor made to wait for
    that record: the record is replaced by a new one (the promise and the
    timer of this call, both different from the old ones), one more
    disposition frame is sent for the delivery, and no promise callback is
    called. *)
Theorem settleMessage_replaces_pending_record (ext : Externals)
    (before : list Event) (d : Delivery) (op : string)
    (o : option DispositionOptions) (pl : PromiseLike) :
  let r := run ext before newReceiver in
  let r' := fst (settleMessage ext d op o r) in
  matchesOperation op = true ->
  _deliveryDispositionMap r !! id d = Some pl ->
  (forall (s : Receiver) (i : Z), (length (recordsFor i s) <= 1)%nat)
  /\ _deliveryDispositionMap r' !! id d
     = Some (mkPromiseLike (nextPromise r) (nextTimer r))
  /\ promise pl <> nextPromise r
  /\ timer pl <> nextTimer r
  /\ length (framesFor (id d) r') = S (length (framesFor (id d) r))
  /\ settlements r' = settlements r.
Proof.
  intros r r' Hop Hpl. split; [intros; apply recordsFor_at_most_one|].
  assert (promise pl <> nextPromise r /\ timer pl <> nextTimer r) as [Np Nt].
  { pose proof (wf_reachable ext before) as W. fold r in W.
    destruct (wf_record_timer _ W _ _ Hpl) as (task & Ht & _ & Hp).
    destruct (wf_timer_fresh _ W _ _ Ht) as (Hlt & Hlp & _). lia. }
  unfold r', settleMessage. rewrite Hop. simpl.
  rewrite lookup_insert_eq. repeat (split; [done|]). split; [|done].
  unfold framesFor. simpl.
  destruct (dispositionFrame_recognised d op
              (match o with
               | Some o0 => o0
               | None => mkDispositionOptions None None
               end) Hop)
    as (f & -> & Hf).
  simpl. rewrite filter_app, length_app, filter_cons. simpl.
  destruct (decide _); [simpl; lia|done].
Qed.

(** The theorem at a second call, [abandon] after [complete], for
    delivery 7: two frames have been sent for it. *)
Lemma settleMessage_replaces_pending_record_witness :
  length (framesFor 7
            (fst (settleMessage sampleExternals (mkDelivery 7 false None)
                    "abandon" None
                    (run sampleExternals
                       [CallSettle (mkDelivery 7 false None) "complete" None]
                       newReceiver))))
  = 2%nat.
Proof.
  apply (settleMessage_replaces_pending_record sampleExternals
           [CallSettle (mkDelivery 7 false None) "complete" None]
           (mkDelivery 7 false None) "abandon" None (mkPromiseLike 0 0));
    reflexivity.
Defined.

(** Claim C1 as first stated fails: after [complete] on delivery 7 its
    record is pending; a second [complete] is not rejected (no callback is
    called), does not keep the pending record (the map now holds the second
    promise and timer), and a second [Accept] frame goes out. *)
Lemma second_settleMessage_sends_second_frame :
  let d := mkDelivery 7 false None in
  let r1 := fst (settleMessage sampleExternals d "complete" None newReceiver) in
  let r2 := fst (settleMessage sampleExternals d "complete" None r1) in
  _deliveryDispositionMap r1 !! 7 = Some (mkPromiseLike 0 0)
  /\ framesFor 7 r1 = [Accept 7]
  /\ framesFor 7 r2 = [Accept 7; Accept 7]
  /\ framesFor 7 r2 <> framesFor 7 r1
  /\ settlements r2 = []
  /\ _deliveryDispositionMap r2 !! 7 = Some (mkPromiseLike 1 1).
Proof. vm_compute. repeat split; try reflexivity. discriminate. Qed.

(** Claim C7.  When the operation is none of [complete], [abandon],
    [defer], [deadletter], [settleMessage] rejects the returned promise at
    once with the "not a valid operation" error: no disposition frame is
    sent, the disposition map is unchanged, and no timer is started. *)
Theorem unrecognised_operation_rejects_immediately (ext : Externals)
    (d : Delivery) (op : string) (o : option DispositionOptions)
    (r : Receiver) :
  (forall k, op <> dispositionName k) ->
  settlements (fst (settleMessage ext d op o r))
  = settlements r
      ++ [(snd (settleMessage ext d op o r), Rejected (invalidOperation op))]
  /\ frames (fst (settleMessage ext d op o r)) = frames r
  /\ _deliveryDispositionMap (fst (settleMessage ext d op o r))
     = _deliveryDispositionMap r
  /\ timers (fst (settleMessage ext d op o r)) = timers r
  /\ nextTimer (fst (settleMessage ext d op o r)) = nextTimer r.
Proof.
  intros H. assert (matchesOperation op = false) as E.
  { destruct (matchesOperation op) eqn:E; [|done].
    apply matchesOperation_names in E as [k ->]. by destruct (H k). }
  unfold settleMessage. rewrite E. simpl. done.
Qed.

(** The theorem at the operation ["renew"] on a new receiver. *)
Lemma unrecognised_operation_rejects_immediately_witness :
  settlements
    (fst (settleMessage sampleExternals (mkDelivery 7 false None) "renew"
            None newReceiver))
  = [(0%nat,
      Rejected (PlainError "operation: 'renew' is not a valid operation."))]
  /\ frames
       (fst (settleMessage sampleExternals (mkDelivery 7 false None) "renew"
               None newReceiver)) = [].
Proof.
  destruct (unrecognised_operation_rejects_immediately sampleExternals
              (mkDelivery 7 false None) "renew" None newReceiver)
    as (H1 & H2 & _).
  - intros []; discriminate.
  - split; [exact H1|exact H2].
Defined.

(** Claim C3, as amended.  Take a [settleMessage] call with a recognised
    operation, made in any reachable state, and any later state in which the
    record this call registered is still the one the map holds for its
    delivery.  Then the promise has not been settled, and its timer is
    pending with the fixed delay.  If a settled acknowledgement for the
    delivery is handled now, the promise is resolved when the remote state
    carries no error with a condition or description, and rejected with the
    translated error otherwise; the record is removed and the timer cleared.
    If instead the timer fires now, the promise is resolved and the record is
    removed.  In both cases the callbacks of the promise have been called
    exactly once, and stay so whatever happens later. *)
Theorem pending_record_settles_exactly_once (ext : Externals)
    (before after : list Event) (d : Delivery) (op : string)
    (o : option DispositionOptions) :
  let r0 := run ext before newReceiver in
  let p := nextPromise r0 in
  let t := nextTimer r0 in
  let r := run ext after (fst (settleMessage ext d op o r0)) in
  matchesOperation op = true ->
  _deliveryDispositionMap r !! id d = Some (mkPromiseLike p t) ->
  snd (settleMessage ext d op o r0) = p
  /\ timesSettled p r = 0%nat
  /\ timers r !! t
     = Some (mkTimeoutTask (messageDispositionTimeout ext) (id d) p)
  /\ (forall a : Delivery,
        id a = id d -> remote_settled a = true ->
        settlements (_onSettled ext (Some a) r)
        = settlements r ++ [(p, acknowledgedOutcome ext (remote_state a))]
        /\ _deliveryDispositionMap (_onSettled ext (Some a) r) !! id d = None
        /\ timers (_onSettled ext (Some a) r) !! t = None
        /\ forall later,
             timesSettled p (run ext later (_onSettled ext (Some a) r))
             = 1%nat)
  /\ (settlements (timeoutFires t r) = settlements r ++ [(p, Resolved)]
      /\ _deliveryDispositionMap (timeoutFires t r) !! id d = None
      /\ timers (timeoutFires t r) !! t = None
      /\ forall later,
           timesSettled p (run ext later (timeoutFires t r)) = 1%nat).
Proof.
  intros r0 p t r Hop Hrec.
  assert (wf r) as W.
  { apply wf_run, wf_settleMessage, wf_reachable. }
  assert (fixedDelay ext r) as F.
  { apply fixedDelay_run. apply (fixedDelay_step ext (CallSettle d op o)).
    apply fixedDelay_run. intros ? ? H. unfold newReceiver in H. simpl in H.
    by rewrite lookup_empty in H. }
  destruct (wf_record_timer _ W _ _ Hrec) as (task & Ht & Hd & Hp).
  simpl in Ht, Hp.
  destruct (wf_timer_fresh _ W _ _ Ht) as (_ & _ & H0). rewrite Hp in H0.
  assert (task = mkTimeoutTask (messageDispositionTimeout ext) (id d) p) as ->.
  { pose proof (F _ _ Ht) as Hdl. destruct task as [dl dv pr].
    simpl in Hdl, Hd, Hp. by rewrite Hdl, Hd, Hp. }
  split. { unfold settleMessage. by destruct (negb _). }
  split; [done|]. split; [done|]. split.
  - intros a Ha Hs.
    assert (settlements (_onSettled ext (Some a) r)
            = settlements r ++ [(p, acknowledgedOutcome ext (remote_state a))]
            /\ _deliveryDispositionMap (_onSettled ext (Some a) r) !! id d
               = None
            /\ timers (_onSettled ext (Some a) r) !! t = None)
      as (E1 & E2 & E3).
    { unfold _onSettled. rewrite Hs, Ha, Hrec. simpl.
      by rewrite !lookup_delete_eq. }
    repeat split; try done. intros later.
    apply settled_once_for_good; [by apply wf_onSettled|].
    unfold timesSettled in *. rewrite E1, count_snoc, H0.
    by destruct (decide (p = p)).
  - assert (settlements (timeoutFires t r) = settlements r ++ [(p, Resolved)]
            /\ _deliveryDispositionMap (timeoutFires t r) !! id d = None
            /\ timers (timeoutFires t r) !! t = None) as (E1 & E2 & E3).
    { unfold timeoutFires. rewrite Ht. simpl. by rewrite !lookup_delete_eq. }
    repeat split; try done. intros later.
    apply settled_once_for_good; [by apply wf_timeoutFires|].
    unfold timesSettled in *. rewrite E1, count_snoc, H0.
    by destruct (decide (p = p)).
Qed.

(** The theorem at a [complete] on delivery 7 that the broker refuses. *)
Lemma pending_record_settles_exactly_once_witness :
  settlements
    (_onSettled sampleExternals
       (Some (mkDelivery 7 true
                (Some (mkRemoteState
                         (Some (mkAmqpError (Some "amqp:internal-error"%string)
                                  None))))))
       (fst (settleMessage sampleExternals (mkDelivery 7 false None)
               "complete" None newReceiver)))
  = [(0%nat,
      Rejected
        (Translated (mkMessagingError "MessagingError" false "")))].
Proof.
  destruct (pending_record_settles_exactly_once sampleExternals [] []
              (mkDelivery 7 false None) "complete" None)
    as (_ & _ & _ & Hack & _); [reflexivity|reflexivity|].
  destruct (Hack (mkDelivery 7 true
                    (Some (mkRemoteState
                             (Some (mkAmqpError
                                      (Some "amqp:internal-error"%string)
                                      None))))))
    as (H & _); [reflexivity|reflexivity|].
  exact H.
Defined.

(** Claim C3 as first stated fails when calls overlap: [complete] on
    delivery 7 returns promise 0; [abandon] on the same delivery follows; the
    broker then refuses the delivery while the timer of promise 0 is still
    pending.  The refusal reaches promise 1 only; promise 0 is left unsettled
    and is later resolved, as a success, by its timeout. *)
Lemma overlapping_settleMessage_misses_acknowledgement :
  let d := mkDelivery 7 false None in
  let refusal :=
    mkDelivery 7 true
      (Some (mkRemoteState
               (Some (mkAmqpError (Some "amqp:internal-error"%string)
                        None)))) in
  let r1 := fst (settleMessage sampleExternals d "complete" None newReceiver) in
  let r2 :=
    run sampleExternals
      [CallSettle d "abandon" None; SettledEvent (Some refusal)] r1 in
  snd (settleMessage sampleExternals d "complete" None newReceiver) = 0%nat
  /\ timers r2 !! 0%nat = Some (mkTimeoutTask 20000 7 0)
  /\ timesSettled 0 r2 = 0%nat
  /\ settlements r2
     = [(1%nat,
         Rejected
           (Translated (mkMessagingError "MessagingError" false "")))]
  /\ settlements (timeoutFires 0 r2)
     = [(1%nat,
         Rejected
           (Translated (mkMessagingError "MessagingError" false "")));
        (0%nat, Resolved)].
Proof. vm_compute. repeat split; reflexivity. Qed.

End SettlementFacts.

(* ===================================================================== *)
(** ** Facts about message handling *)
(* ===================================================================== *)

Module HandlingFacts.
Import Handling.

(** Reports to the error callback are no settlements. *)
Lemma reports_settle_nothing (l : list Effect) :
  Forall (fun x => isOnError x = true) l -> filter isSettlement l = [].
Proof.
  induction 1 as [|x l Hx _ IH]; [done|].
  rewrite filter_cons_False; [done|].
  destruct x; simpl in *; auto; discriminate.
Qed.

Section Runs.
Context (ext : Externals) (cfg : Config).

(** The invariant holds at the start of a run and is kept by every step. *)
Lemma inv_autoRenewLockTask now s :
  inv cfg s -> pending s = ∅ -> renewing s = false ->
  (continueExecution s = true ->
   autoRenewLock cfg = true /\ phase s = AwaitOnMessage) ->
  inv cfg (autoRenewLockTask ext now s).
Proof.
  intros [I1 I2 I3 I4 I5] Hp Hr Hc. unfold autoRenewLockTask.
  destruct (_ && _) eqn:E; [|by split].
  apply andb_prop in E as [_ E]. destruct (Hc E) as [Ha Hph].
  split; simpl.
  - intros h Hh. rewrite Hp in Hh. apply elem_of_union in Hh as [Hh|Hh].
    + apply elem_of_singleton in Hh. by subst.
    + by apply not_elem_of_empty in Hh.
  - congruence.
  - congruence.
  - congruence.
  - intros _. rewrite filter_app, (I5 Hph). reflexivity.
Qed.

Lemma inv_start now lockedUntil :
  inv cfg (_onAmqpMessage ext cfg now lockedUntil).
Proof.
  unfold _onAmqpMessage.
  assert (forall s, inv cfg s -> phase s = AwaitOnMessage ->
                    inv cfg (emit [CallOnMessage] s)) as Hemit.
  { intros s [I1 I2 I3 I4 I5] Hph. split; simpl; auto.
    intros _. rewrite filter_app, (I5 Hph). reflexivity. }
  destruct (autoRenewLock cfg) eqn:Ha.
  - apply Hemit.
    + apply inv_autoRenewLockTask; simpl; try done.
      split; simpl; try done; try congruence;
        intros h Hh; by apply not_elem_of_empty in Hh.
    + unfold autoRenewLockTask. by destruct (_ && _).
  - apply Hemit; [|done].
    split; simpl; try done; try congruence;
        intros h Hh; by apply not_elem_of_empty in Hh.
Qed.

(** The only handle that can be pending is the one in [timer]. *)
Lemma pending_only_timer s h :
  inv cfg s -> h ∈ pending s -> pending s ∖ {[h]} = ∅.
Proof.
  intros I Hh. apply set_eq. intros x.
  split; [|intros Hx; by apply not_elem_of_empty in Hx].
  intros Hx. apply elem_of_difference in Hx as [Hx Hne].
  pose proof (inv_pending_timer _ _ I _ Hx).
  pose proof (inv_pending_timer _ _ I _ Hh).
  exfalso. apply Hne, elem_of_singleton. congruence.
Qed.

Lemma pending_cleared s :
  inv cfg s ->
  match timer s with
  | Some h => pending s ∖ {[h]}
  | None => pending s
  end = ∅.
Proof.
  intros I. apply set_eq. intros x.
  split; [|intros Hx; by apply not_elem_of_empty in Hx].
  intros Hx. destruct (timer s) as [h|] eqn:E.
  - apply elem_of_difference in Hx as [Hx Hne].
    pose proof (inv_pending_timer _ _ I _ Hx).
    exfalso. apply Hne, elem_of_singleton. congruence.
  - pose proof (inv_pending_timer _ _ I _ Hx). congruence.
Qed.

(** The handler's completion stops the renewal, whatever the mode. *)
Lemma cleared_stops s :
  inv cfg s -> phase s = AwaitOnMessage ->
  inv cfg (clearTimerAndStopExecution cfg s)
  /\ continueExecution (clearTimerAndStopExecution cfg s) = false
  /\ pending (clearTimerAndStopExecution cfg s) = ∅
  /\ phase (clearTimerAndStopExecution cfg s) = AwaitOnMessage.
Proof.
  intros I Hph. pose proof I as [I1 I2 I3 I4 I5].
  unfold clearTimerAndStopExecution. destruct (autoRenewLock cfg) eqn:Ha.
  - pose proof (pending_cleared _ I) as Hp.
    split; [|by simpl]. split; simpl.
    + intros h Hh. rewrite Hp in Hh. by apply not_elem_of_empty in Hh.
    + done.
    + done.
    + congruence.
    + intros _. rewrite filter_app, (I5 Hph). reflexivity.
  - destruct (I4 eq_refl) as (? & ? & ?). done.
Qed.

Lemma inv_step e s : inv cfg s -> inv cfg (step ext cfg e s).
Proof.
  intros I. pose proof I as [I1 I2 I3 I4 I5].
  destruct e as [h now|result now|result|result]; simpl.
  - unfold timerFires. case_bool_decide as Hh; [|done].
    pose proof (pending_only_timer _ _ I Hh) as Hempty.
    split; simpl.
    + intros x Hx. rewrite Hempty in Hx. by apply not_elem_of_empty in Hx.
    + intros Hph. destruct (I2 Hph) as [? Hp]. rewrite Hp in Hh.
      by apply not_elem_of_empty in Hh.
    + done.
    + intros Ha. destruct (I4 Ha) as (? & Hp & ?). rewrite Hp in Hh.
      by apply not_elem_of_empty in Hh.
    + intros Hph. rewrite filter_app, (I5 Hph). reflexivity.
  - unfold renewLockSettled. destruct (renewing s) eqn:Hr; [|done].
    specialize (I3 eq_refl).
    destruct result as [err|expiry].
    + split; simpl; auto.
      * intros Ha. destruct (I4 Ha) as (? & ? & ?). congruence.
      * intros Hph. rewrite filter_app, (I5 Hph). reflexivity.
    + apply inv_autoRenewLockTask; simpl; try done.
      * split; simpl; auto. intros Ha. destruct (I4 Ha) as (? & ? & ?).
        congruence.
      * intros Hc. split.
        -- destruct (autoRenewLock cfg) eqn:Ha; [done|].
           destruct (I4 eq_refl) as (? & ? & ?). congruence.
        -- destruct (phase s) eqn:Hph; try done;
             (destruct I2 as [? ?]; [congruence|congruence]).
  - unfold onMessageSettled. destruct (phase s) eqn:Hph; try done.
    destruct (cleared_stops s I Hph) as (J & Jc & Jp & Jph).
    assert (forall ph es,
              ph <> AwaitOnMessage ->
              inv cfg
                (suspendAt ph (emit es (clearTimerAndStopExecution cfg s))))
      as Hnext.
    { intros ph es Hne. destruct J as [J1 J2 J3 J4 J5].
      split; simpl; auto; congruence. }
    assert (forall ph, ph <> AwaitOnMessage ->
              inv cfg (suspendAt ph (clearTimerAndStopExecution cfg s)))
      as Hnext'.
    { intros ph Hne. destruct J as [J1 J2 J3 J4 J5].
      split; simpl; auto; congruence. }
    destruct result as [err|].
    + destruct (_ && _); [by apply Hnext|by apply Hnext'].
    + destruct (_ && _); [by apply Hnext|by apply Hnext'].
  - unfold settlementSettled.
    destruct (phase s) eqn:Hph; try done; destruct result as [err|];
      split; simpl; auto; try congruence;
      intros _; apply I2; congruence.
Qed.

Lemma inv_run es s : inv cfg s -> inv cfg (run ext cfg es s).
Proof.
  revert s. induction es as [|e es IH]; intros s H; simpl; [done|].
  apply IH, inv_step, H.
Qed.

Lemma run_app es1 es2 (s : Invocation) :
  run ext cfg (es1 ++ es2) s = run ext cfg es2 (run ext cfg es1 s).
Proof. unfold run. apply fold_left_app. Qed.

(** After the renewal is stopped, a step adds nothing but a report to the
    error callback; after the handler wrapper has returned, nothing but the
    report of a renewal failure. *)
Lemma stopped_step e s :
  stopped s ->
  stopped (step ext cfg e s)
  /\ exists tail,
       effects (step ext cfg e s) = effects s ++ tail
       /\ Forall (fun x => isOnError x = true) tail
       /\ (phase s = Returned ->
           phase (step ext cfg e s) = Returned
           /\ Forall (renewalFailure [e]) tail).
Proof.
  intros (Hc & Hp & Hph).
  assert (forall s', s' = s ->
            stopped s'
            /\ exists tail,
                 effects s' = effects s ++ tail
                 /\ Forall (fun x => isOnError x = true) tail
                 /\ (phase s = Returned ->
                     phase s' = Returned /\ Forall (renewalFailure [e]) tail))
    as Hsame.
  { intros s' ->. split; [done|]. exists []. by rewrite app_nil_r. }
  destruct e as [h now|result now|result|result]; simpl.
  - unfold timerFires. rewrite Hp.
    case_bool_decide as Hh;
      [by apply not_elem_of_empty in Hh|by apply Hsame].
  - unfold renewLockSettled. destruct (renewing s); [|by apply Hsame].
    destruct result as [err|expiry].
    + split; [done|]. exists [OnError (AsCaught err)]. simpl.
      split; [done|]. split; [by repeat constructor|].
      intros HR. split; [done|]. repeat constructor.
      exists err, now. split; [done|]. apply list_elem_of_here.
    + unfold autoRenewLockTask. simpl. rewrite Hc, andb_false_r.
      split; [done|]. exists []. simpl. rewrite app_nil_r. done.
  - unfold onMessageSettled.
    destruct (phase s) eqn:E; [congruence|by apply Hsame..].
  - unfold settlementSettled.
    destruct (phase s) eqn:E; [congruence| | |by apply Hsame];
      (destruct result as [err|]; (split; [done|]); simpl;
       [eexists; split; [reflexivity|]; split; [by repeat constructor|done]
       |exists []; rewrite app_nil_r; done]).
Qed.

Lemma renewalFailure_mono es es' x :
  es ⊆ es' -> renewalFailure es x -> renewalFailure es' x.
Proof.
  intros Hsub (c & now & -> & Hin). exists c, now. split; [done|]. auto.
Qed.

Lemma stopped_run es s :
  stopped s ->
  stopped (run ext cfg es s)
  /\ exists tail,
       effects (run ext cfg es s) = effects s ++ tail
       /\ Forall (fun x => isOnError x = true) tail
       /\ (phase s = Returned ->
           phase (run ext cfg es s) = Returned
           /\ Forall (renewalFailure es) tail).
Proof.
  revert s. induction es as [|e es IH]; intros s Hs; simpl.
  - split; [done|]. exists []. by rewrite app_nil_r.
  - destruct (stopped_step e s Hs) as (Hs1 & t1 & E1 & F1 & R1).
    destruct (IH _ Hs1) as (Hs2 & t2 & E2 & F2 & R2).
    split; [done|]. exists (t1 ++ t2). rewrite E2, E1, app_assoc.
    split; [done|]. split; [by apply Forall_app|].
    intros HR. destruct (R1 HR) as [HR1 G1]. destruct (R2 HR1) as [HR2 G2].
    split; [done|]. apply Forall_app. split.
    + eapply Forall_impl; [exact G1|]. intros x.
      apply renewalFailure_mono. intros y Hy.
      apply list_elem_of_singleton in Hy. subst. apply list_elem_of_here.
    + eapply Forall_impl; [exact G2|]. intros x.
      apply renewalFailure_mono. intros y Hy.
      by apply list_elem_of_further.
Qed.


Lemma inv_reached now lockedUntil es :
  inv cfg (run ext cfg es (_onAmqpMessage ext cfg now lockedUntil)).
Proof. apply inv_run, inv_start. Qed.

(** What the handler's completion does at once. *)
Lemma onMessageSettled_effects result s :
  inv cfg s -> phase s = AwaitOnMessage ->
  stopped (onMessageSettled ext cfg result s)
  /\ exists settle,
       effects (onMessageSettled ext cfg result s)
       = effects s
           ++ (if autoRenewLock cfg then [ClearTimeout (timer s)] else [])
           ++ settle
       /\ Forall (fun x => isSettlement x = true) settle.
Proof.
  intros I Hph. destruct (cleared_stops s I Hph) as (J & Jc & Jp & Jph).
  assert (effects (clearTimerAndStopExecution cfg s)
          = effects s
              ++ (if autoRenewLock cfg then [ClearTimeout (timer s)] else []))
    as Heff.
  { unfold clearTimerAndStopExecution.
    destruct (autoRenewLock cfg); simpl; [done|by rewrite app_nil_r]. }
  unfold onMessageSettled. rewrite Hph.
  destruct result as [err|]; destruct (_ && _); simpl;
    (split; [by repeat split|]); rewrite Heff.
  - exists [Abandon]. by rewrite app_assoc; repeat constructor.
  - exists []. by rewrite app_nil_r.
  - exists [Complete]. by rewrite app_assoc; repeat constructor.
  - exists []. by rewrite app_nil_r.
Qed.

End Runs.

(** Claim C4.  With auto-renewal active, let the application handler
    complete (with either result) after any events.  The first thing done is
    the cancellation of the renewal, [clearTimeout] on the current timer, and
    no settlement was issued before it.  From then on, whatever events
    follow, [renewLock] is never called and no timer is set: every
    [abandon()] or [complete()] comes after the cancellation, no handle stays
    pending and [continueExecution] stays false. *)
Theorem renewal_stops_when_handler_completes (ext : Externals) (cfg : Config)
    (now lockedUntil : Z) (before after : list Event)
    (result : option Thrown) :
  let s := run ext cfg before (_onAmqpMessage ext cfg now lockedUntil) in
  let final :=
    run ext cfg (before ++ OnMessageSettled result :: after)
      (_onAmqpMessage ext cfg now lockedUntil) in
  autoRenewLock cfg = true ->
  phase s = AwaitOnMessage ->
  exists tail,
    effects final = effects s ++ ClearTimeout (timer s) :: tail
    /\ filter isSettlement (effects s) = []
    /\ (RenewLock ∉ tail)
    /\ (forall h amount, SetTimeout h amount ∉ tail)
    /\ pending final = ∅
    /\ continueExecution final = false.
Proof.
  intros s final Ha Hph.
  pose proof (inv_reached ext cfg now lockedUntil before) as I. fold s in I.
  destruct (onMessageSettled_effects ext cfg result s I Hph)
    as (St & settle & E1 & F1).
  destruct (stopped_run ext cfg after _ St) as (St2 & tail & E2 & F2 & _).
  rewrite Ha in E1. exists (settle ++ tail).
  assert (final = run ext cfg after (onMessageSettled ext cfg result s)) as ->.
  { unfold final. by rewrite run_app. }
  split. { rewrite E2, E1. by rewrite <- !app_assoc. }
  split. { by apply (inv_unsettled _ _ I). }
  assert (Forall (fun x => isSettlement x = true \/ isOnError x = true)
            (settle ++ tail)) as F.
  { apply Forall_app. split; (eapply Forall_impl; [eassumption|]); auto. }
  rewrite Forall_forall in F.
  split. { intros Hin. by destruct (F _ Hin). }
  split. { intros h amount Hin. by destruct (F _ Hin). }
  by destruct St2 as (? & ? & ?).
Qed.


(** The theorem for a handler that succeeds while a renewal, started when
    the first timer fired, is still outstanding. *)
Lemma renewal_stops_when_handler_completes_witness :
  exists tail,
    effects
      (run sampleExternals (constructed (mkReceiveOptions None None None))
         ([TimerDue 0 20000]
          ++ OnMessageSettled None :: [RenewLockSettled (inr 60000) 21000])
         (_onAmqpMessage sampleExternals
            (constructed (mkReceiveOptions None None None)) 0 30000))
    = [SetTimeout 0 20000; CallOnMessage; RenewLock]
      ++ ClearTimeout (Some 0%nat) :: tail
    /\ (RenewLock ∉ tail).
Proof.
  destruct (renewal_stops_when_handler_completes sampleExternals
              (constructed (mkReceiveOptions None None None)) 0 30000
              [TimerDue 0 20000] [RenewLockSettled (inr 60000) 21000] None)
    as (tail & E & _ & N & _); [reflexivity|reflexivity|].
  exists tail. split; [exact E|exact N].
Defined.

(** Claim C6, as amended.  When the handler fails with an error whose
    translation carries the lock-lost name, no [abandon()] and no
    [complete()] is issued for the message, in peek-lock mode as in the
    other.  The failure is not passed to the error callback: the wrapper
    only cancels the renewal (when auto-renewal is on) and returns, and the
    only calls made afterwards are reports of renewal failures. *)
Theorem lock_lost_failure_settles_nothing (ext : Externals) (cfg : Config)
    (now lockedUntil : Z) (before after : list Event) (err : Thrown) :
  let s := run ext cfg before (_onAmqpMessage ext cfg now lockedUntil) in
  let failed := step ext cfg (OnMessageSettled (Some err)) s in
  let final :=
    run ext cfg (before ++ OnMessageSettled (Some err) :: after)
      (_onAmqpMessage ext cfg now lockedUntil) in
  errName (translate ext err) = messageLockLostName ext ->
  phase s = AwaitOnMessage ->
  filter isSettlement (effects final) = []
  /\ effects failed
     = effects s
         ++ (if autoRenewLock cfg then [ClearTimeout (timer s)] else [])
  /\ phase failed = Returned
  /\ exists tail,
       effects final = effects failed ++ tail
       /\ Forall (renewalFailure after) tail.
Proof.
  intros s failed final Hlost Hph.
  pose proof (inv_reached ext cfg now lockedUntil before) as I. fold s in I.
  destruct (cleared_stops cfg s I Hph) as (J & Jc & Jp & Jph).
  assert (failed = suspendAt Returned (clearTimerAndStopExecution cfg s)) as Hf.
  { unfold failed. simpl. unfold onMessageSettled. rewrite Hph, Hlost.
    by rewrite String.eqb_refl. }
  assert (effects failed
          = effects s
              ++ (if autoRenewLock cfg then [ClearTimeout (timer s)] else []))
    as Heff.
  { rewrite Hf. simpl. unfold clearTimerAndStopExecution.
    destruct (autoRenewLock cfg); simpl; [done|by rewrite app_nil_r]. }
  assert (stopped failed /\ phase failed = Returned) as [St HR].
  { rewrite Hf. by repeat split. }
  destruct (stopped_run ext cfg after _ St) as (_ & tail & E & F & R).
  destruct (R HR) as [_ G].
  assert (final = run ext cfg after failed) as Hfin.
  { unfold final. by rewrite run_app. }
  split.
  - rewrite Hfin, E, Heff, !filter_app, (inv_unsettled _ _ I Hph).
    rewrite (reports_settle_nothing tail F).
    by destruct (autoRenewLock cfg).
  - split; [done|]. split; [done|]. exists tail. by rewrite Hfin.
Qed.

(** The theorem for a receiver built with the defaults whose handler
    fails at once with the lock-lost condition. *)
Lemma lock_lost_failure_settles_nothing_witness :
  filter isSettlement
    (effects
       (run sampleExternals (constructed (mkReceiveOptions None None None))
          ([] ++ OnMessageSettled
                   (Some (AmqpFault
                            (mkAmqpError
                               (Some "com.microsoft:message-lock-lost"%string)
                               None)))
              :: [])
          (_onAmqpMessage sampleExternals
             (constructed (mkReceiveOptions None None None)) 0 30000)))
  = [].
Proof.
  destruct (lock_lost_failure_settles_nothing sampleExternals
              (constructed (mkReceiveOptions None None None)) 0 30000 [] []
              (AmqpFault
                 (mkAmqpError (Some "com.microsoft:message-lock-lost"%string)
                    None)))
    as (H & _); [reflexivity|reflexivity|exact H].
Defined.

(** Claim C6 as first stated fails in its second half: a peek-lock
    receiver built with the defaults, a handler that fails with the lock-lost
    condition.  All the calls of the run are listed; the error callback is
    not among them. *)
Lemma lock_lost_failure_reaches_no_error_callback :
  let cfg := constructed (mkReceiveOptions None None None) in
  let lost :=
    AmqpFault
      (mkAmqpError (Some "com.microsoft:message-lock-lost"%string)
         (Some "The lock supplied is invalid."%string)) in
  let final :=
    run sampleExternals cfg [OnMessageSettled (Some lost)]
      (_onAmqpMessage sampleExternals cfg 0 30000) in
  receiveMode cfg = peekLock
  /\ errName (translate sampleExternals lost)
     = messageLockLostName sampleExternals
  /\ effects final
     = [SetTimeout 0 20000; CallOnMessage; ClearTimeout (Some 0%nat)]
  /\ filter isOnError (effects final) = []
  /\ phase final = Returned.
Proof. vm_compute. repeat split; reflexivity. Qed.

End HandlingFacts.

(* ===================================================================== *)
(** ** Facts about the link lifecycle *)
(* ===================================================================== *)

Module LifecycleFacts.
Import Lifecycle.

(** Reading the calls added by an operation. *)
Lemma callsSince_app w w' tail :
  effects w' = effects w ++ tail -> callsSince w w' = tail.
Proof. intros E. unfold callsSince. rewrite E. apply drop_app_length. Qed.

Lemma closeLink_effects this link w :
  effects (_closeLink this link w) = effects w ++ [CloseLink this link].
Proof. reflexivity. Qed.

Lemma closeLink_receiver this link w r :
  receivers w !! this = Some r ->
  receivers (_closeLink this link w) !! this = Some (clearTokenRenewal r).
Proof.
  intros H. unfold _closeLink. simpl. rewrite H. apply lookup_insert_eq.
Qed.

Lemma closeLink_not_open this w r :
  receivers w !! this = Some r ->
  isOpen (_closeLink this (_receiver r) w) (clearTokenRenewal r) = false.
Proof.
  intros H. unfold isOpen, linkReads, _closeLink. simpl.
  destruct (_receiver r) as [h|]; [|done].
  destruct (links w !! h) as [l|] eqn:E.
  - by rewrite lookup_insert_eq.
  - by rewrite E.
Qed.

Section WithExternals.
Context (ext : Externals).

(** The decision of [detached], read off its [if]/[else if] chain. *)
Lemma shouldReopen_iff err closeInitiated :
  shouldReopen ext err closeInitiated = true
  <-> closeInitiated = false
      /\ match err with
         | None => True
         | Some e => retryable (translate ext e) = true
         end.
Proof.
  unfold shouldReopen. destruct err as [e|], closeInitiated; simpl;
    intuition congruence.
Qed.

(** One call of [_init]: what it adds to the calls. *)
Lemma init_effects this options outcome w r :
  receivers w !! this = Some r ->
  exists tail,
    effects (fst (_init ext this options outcome w))
    = effects w ++ InitCalled this options :: tail
    /\ Forall (fun e => e = NegotiateClaim this
                        \/ e = CreateReceiver this
                                 (default (receiverOptions r) options)
                        \/ e = EnsureTokenRenewal this) tail.
Proof.
  intros H. unfold _init. simpl. rewrite H.
  destruct (negb (isOpen _ r) && negb (isConnecting r)); [|by exists []].
  destruct outcome as [e|e|[e|]]; simpl; rewrite ?lookup_insert_eq; simpl;
    rewrite <- ?app_assoc; simpl; eexists; (split; [reflexivity|]);
    repeat (apply Forall_cons; split; [unfold default; intuition|]);
    constructor.
Qed.


(** An attempt that is refused leaves an idle receiver as it was. *)
Lemma init_refused this options outcome w r e :
  receivers w !! this = Some r -> idle w r -> refused outcome = Some e ->
  exists w',
    _init ext this options outcome w = (w', Some (translate ext e))
    /\ receivers w' !! this = Some r /\ idle w' r
    /\ context w' = context w /\ entropy w' = entropy w.
Proof.
  intros H [Ho Hc] Hr. unfold _init. simpl. rewrite H.
  assert (isOpen (emit [InitCalled this options] w) r = false) as -> by done.
  rewrite Hc. simpl.
  assert (setConnecting false (setConnecting true r) = r) as Hback.
  { destruct r. simpl in Hc. by subst. }
  destruct outcome as [e'|e'|tr]; simpl in Hr; inversion Hr; subst;
    simpl; rewrite lookup_insert_eq; eexists; (split; [reflexivity|]);
    simpl; rewrite Hback, insert_insert_eq;
    (split; [apply lookup_insert_eq|]); done.
Qed.

Lemma idle_emit es w r : idle w r -> idle (emit es w) r.
Proof. done. Qed.

Lemma init_receiver_stays this options outcome w :
  is_Some (receivers w !! this) ->
  is_Some (receivers (fst (_init ext this options outcome w)) !! this).
Proof.
  intros [r H]. unfold _init. simpl. rewrite H.
  destruct (negb (isOpen _ r) && negb (isConnecting r)); [|by simpl; eauto].
  destruct outcome as [e|e|[e|]]; simpl; rewrite ?lookup_insert_eq; simpl;
    rewrite ?lookup_insert_eq; eauto.
Qed.

Lemma establishing_init_tail this opts delay r tail :
  Forall (fun e => e = NegotiateClaim this
                   \/ e = CreateReceiver this
                            (default (receiverOptions r) (Some opts))
                   \/ e = EnsureTokenRenewal this) tail ->
  Forall (establishing this opts delay) tail
  /\ filter isInitCalled tail = [].
Proof.
  induction 1 as [|x l Hx _ [IH1 IH2]]; [by split|]. split.
  - constructor; [|done]. unfold establishing. simpl in Hx. intuition.
  - rewrite filter_cons_False; [done|].
    destruct Hx as [-> | [-> | ->]]; simpl; auto.
Qed.

(** The retry loop: its calls, and how many attempts it makes. *)
Lemma retryLoop_effects this opts delay outcomes remaining :
  forall attempt lastError w,
    is_Some (receivers w !! this) ->
    exists tail,
      effects (fst (retryLoop
                      (fun n => _init ext this (Some opts) (outcomes n))
                      delay attempt remaining lastError w))
      = effects w ++ tail
      /\ Forall (establishing this opts delay) tail
      /\ (length (filter isInitCalled tail) <= remaining)%nat
      /\ is_Some (receivers
                    (fst (retryLoop
                            (fun n => _init ext this (Some opts) (outcomes n))
                            delay attempt remaining lastError w)) !! this)
      /\ (remaining <> O ->
          exists rest, tail = InitCalled this (Some opts) :: rest).
Proof.
  induction remaining as [|k IH]; intros attempt lastError w Hin; simpl.
  - exists []. rewrite app_nil_r. repeat split; auto; try constructor; done.
  - pose proof (init_receiver_stays this (Some opts) (outcomes attempt) w Hin)
      as Hin1.
    destruct Hin as [r Hr].
    destruct (init_effects this (Some opts) (outcomes attempt) w r Hr)
      as (t1 & E1 & F1).
    destruct (establishing_init_tail this opts delay r t1 F1) as [G1 N1].
    destruct (_init ext this (Some opts) (outcomes attempt) w)
      as [w1 res] eqn:E. simpl in E1, Hin1.
    assert (Forall (establishing this opts delay)
              (InitCalled this (Some opts) :: t1)) as G.
    { constructor; [by left|done]. }
    assert (length (filter isInitCalled (InitCalled this (Some opts) :: t1))
            = 1%nat) as C.
    { rewrite filter_cons_True by done. simpl. by rewrite N1. }
    destruct res as [err|]; [destruct (retryable err)|].
    + destruct (IH (S attempt) (Some err) (emit [Delay delay] w1) Hin1)
        as (t2 & E2 & F2 & C2 & Hin2 & _).
      exists ((InitCalled this (Some opts) :: t1) ++ Delay delay :: t2).
      split; [|split; [|split; [|split]]]; try done; [| | |simpl; eauto].
      * rewrite E2. simpl. rewrite E1. by rewrite <- !app_assoc.
      * apply Forall_app. split; [done|]. constructor; [|done].
        unfold establishing. intuition.
      * rewrite filter_app, length_app, C, filter_cons_False by auto. lia.
    + simpl. exists (InitCalled this (Some opts) :: t1).
      repeat split; eauto. lia.
    + simpl. exists (InitCalled this (Some opts) :: t1).
      repeat split; eauto. lia.
Qed.

(** An idle receiver starts to connect: [_init] goes on to negotiate the
    claim. *)
Lemma init_idle_calls this options outcome w r :
  receivers w !! this = Some r -> idle w r ->
  exists tail,
    effects (fst (_init ext this options outcome w))
    = effects w ++ InitCalled this options :: NegotiateClaim this :: tail.
Proof.
  intros H [Ho Hc]. unfold _init. simpl. rewrite H.
  assert (isOpen (emit [InitCalled this options] w) r = false) as -> by done.
  rewrite Hc. simpl.
  destruct outcome as [e|e|[e|]]; simpl; rewrite ?lookup_insert_eq; simpl;
    rewrite <- ?app_assoc; simpl; eexists; reflexivity.
Qed.

Lemma retryLoop_first_idle this opts delay outcomes remaining attempt
    lastError w r :
  remaining <> O -> receivers w !! this = Some r -> idle w r ->
  exists rest,
    effects (fst (retryLoop
                    (fun n => _init ext this (Some opts) (outcomes n))
                    delay attempt remaining lastError w))
    = effects w
        ++ InitCalled this (Some opts) :: NegotiateClaim this :: rest.
Proof.
  intros Hn Hr Hi. destruct remaining as [|k]; [done|]. simpl.
  destruct (init_idle_calls this (Some opts) (outcomes attempt) w r Hr Hi)
    as (t1 & E1).
  pose proof (init_receiver_stays this (Some opts) (outcomes attempt) w
                (ex_intro _ _ Hr)) as Hin1.
  destruct (_init ext this (Some opts) (outcomes attempt) w) as [w1 res].
  simpl in E1, Hin1.
  destruct res as [err|]; [destruct (retryable err)|]; simpl; eauto.
  destruct (retryLoop_effects this opts delay outcomes k (S attempt)
              (Some err) (emit [Delay delay] w1) Hin1)
    as (t2 & E2 & _).
  rewrite E2. simpl. rewrite E1, <- !app_assoc. simpl. eauto.
Qed.

(** When every attempt is refused with a retryable error, the loop makes
    all its attempts and returns the error of the last one. *)
Lemma retryLoop_exhausted this opts delay outcomes r remaining :
  forall attempt lastError w,
    receivers w !! this = Some r -> idle w r ->
    (forall n, (attempt <= n < attempt + remaining)%nat ->
               exists e, refused (outcomes n) = Some e
                         /\ retryable (translate ext e) = true) ->
    exists w' tail,
      retryLoop (fun n => _init ext this (Some opts) (outcomes n)) delay
        attempt remaining lastError w
      = (w', RetryFailed
               (match remaining with
                | O => lastError
                | S k => translate ext <$> refused (outcomes (attempt + k)%nat)
                end))
      /\ effects w' = effects w ++ tail
      /\ length (filter isInitCalled tail) = remaining.
Proof.
  induction remaining as [|k IH]; intros attempt lastError w Hr Hi Hall; simpl.
  - exists w, []. by rewrite app_nil_r.
  - destruct (Hall attempt) as (e & He & Hret); [lia|].
    destruct (init_refused this (Some opts) (outcomes attempt) w r e Hr Hi He)
      as (w1 & E & Hr1 & Hi1 & _).
    destruct (init_effects this (Some opts) (outcomes attempt) w r Hr)
      as (t1 & E1 & F1).
    destruct (establishing_init_tail this opts delay r t1 F1) as [_ N1].
    rewrite E in E1 |- *. simpl in E1. rewrite Hret.
    destruct (IH (S attempt) (Some (translate ext e))
                (emit [Delay delay] w1) Hr1 (idle_emit _ _ _ Hi1))
      as (w' & tail & E' & Eff & C').
    { intros n Hn. apply Hall. lia. }
    exists w', ((InitCalled this (Some opts) :: t1) ++ Delay delay :: tail).
    split; [|split].
    + rewrite E'. f_equal. f_equal. destruct k as [|k'].
      * by rewrite Nat.add_0_r, He.
      * by replace (S attempt + k')%nat with (attempt + S k')%nat by lia.
    + rewrite Eff. simpl. rewrite E1. by rewrite <- !app_assoc.
    + rewrite filter_app, length_app, filter_cons_True by done.
      rewrite filter_cons_False by auto. simpl. rewrite N1, C'. simpl. lia.
Qed.


(** [detached] for a receiver that does not reopen, and for one that does. *)
Lemma detached_stays_closed this err outcomes w r :
  receivers w !! this = Some r ->
  shouldReopen ext err (wasCloseInitiated w r) = false ->
  detached ext this err outcomes w = _closeLink this (_receiver r) w.
Proof. intros H Hs. unfold detached. by rewrite H, Hs. Qed.

Lemma detached_reopens this err outcomes w r :
  receivers w !! this = Some r ->
  shouldReopen ext err (wasCloseInitiated w r) = true ->
  let w1 := _closeLink this (_receiver r) w in
  let renamed :=
    setName (getUniqueName ext (entityPath (context w)) (entropy w))
      (clearTokenRenewal r) in
  let w2 :=
    mkWorld (context w1) (<[this := renamed]> (receivers w1)) (links w1)
      (nextLink w1) (S (entropy w1)) (effects w1) in
  detached ext this err outcomes w
  = match retry
            (fun n => _init ext this (Some (receiverOptions renamed))
                        (outcomes n))
            (defaultConnectionRetryAttempts ext) 15 w2 with
    | (w3, RetryOk) => w3
    | (w3, RetryFailed e) => emit [DetachedFailed this e] w3
    end.
Proof.
  intros H Hs w1 renamed w2. unfold detached. rewrite H, Hs.
  unfold _createReceiverOptions.
  by rewrite (closeLink_receiver this (_receiver r) w r H).
Qed.

End WithExternals.

(** What [detached] calls when it reopens the link. *)
Lemma detached_reopen_calls (ext : Externals) (this : nat)
    (err : option Thrown) (outcomes : nat -> InitOutcome) (w : World)
    (r : MessageReceiver) :
  let fresh := getUniqueName ext (entityPath (context w)) (entropy w) in
  let options := receiverOptions (setName fresh (clearTokenRenewal r)) in
  let times := defaultConnectionRetryAttempts ext in
  receivers w !! this = Some r ->
  shouldReopen ext err (wasCloseInitiated w r) = true ->
  exists attempts ending,
    callsSince w (detached ext this err outcomes w)
    = CloseLink this (_receiver r) :: RetryCalled times 15
        :: attempts ++ ending
    /\ opt_name options = fresh
    /\ Forall (establishing this options 15) attempts
    /\ (length (filter isInitCalled attempts) <= times)%nat
    /\ (ending = [] \/ exists last, ending = [DetachedFailed this last])
    /\ (times <> O ->
        exists rest, attempts = InitCalled this (Some options) :: rest)
    /\ (times <> O -> isConnecting r = false ->
        exists rest,
          attempts
          = InitCalled this (Some options) :: NegotiateClaim this :: rest)
    /\ (isConnecting r = false ->
        (forall n, (n < times)%nat ->
                   exists e, refused (outcomes n) = Some e
                             /\ retryable (translate ext e) = true) ->
        length (filter isInitCalled attempts) = times
        /\ ending
           = [DetachedFailed this
                (match times with
                 | O => None
                 | S k => translate ext <$> refused (outcomes k)
                 end)]).
Proof.
  intros fresh options times H Hs.
  rewrite (detached_reopens ext this err outcomes w r H Hs). cbv zeta.
  fold fresh. fold options. fold times.
  set (w1 := _closeLink this (_receiver r) w).
  set (renamed := setName fresh (clearTokenRenewal r)).
  set (w2 := mkWorld (context w1) (<[this := renamed]> (receivers w1))
               (links w1) (nextLink w1) (S (entropy w1)) (effects w1)).
  set (wR := emit [RetryCalled times 15] w2).
  assert (receivers wR !! this = Some renamed) as HR.
  { unfold wR, w2. simpl. apply lookup_insert_eq. }
  assert (idle wR renamed <-> isConnecting r = false) as Hidle.
  { unfold idle. assert (isOpen wR renamed = false) as ->.
    { apply (closeLink_not_open this w r H). }
    simpl. intuition. }
  unfold retry. fold wR.
  destruct (retryLoop_effects ext this options 15 outcomes times 0%nat None wR
              (ex_intro _ _ HR))
    as (tail & E & F & C & _ & First).
  assert (times <> O -> isConnecting r = false ->
          exists rest,
            tail
            = InitCalled this (Some options) :: NegotiateClaim this :: rest)
    as Second.
  { intros Hn Hc. apply Hidle in Hc.
    destruct (retryLoop_first_idle ext this options 15 outcomes times 0%nat
                None wR renamed Hn HR Hc) as (rest & E').
    rewrite E in E'. apply app_inv_head in E'. eauto. }
  destruct (retryLoop (fun n => _init ext this (Some options) (outcomes n))
              15 0%nat times None wR) as [w3 res] eqn:EL.
  change (effects w3 = effects wR ++ tail) in E.
  assert (effects wR
          = effects w ++ [CloseLink this (_receiver r); RetryCalled times 15])
    as EwR.
  { unfold wR, w2, w1. simpl. by rewrite <- app_assoc. }
  exists tail, (match res with
                | RetryOk => []
                | RetryFailed e => [DetachedFailed this e]
                end).
  split; [|split; [done|split; [done|split; [done|split;
    [|split; [done|split; [done|]]]]]]].
  - apply callsSince_app. destruct res as [|last].
    + rewrite E, EwR, <- app_assoc. simpl. by rewrite app_nil_r.
    + change (effects (emit [DetachedFailed this last] w3))
        with (effects w3 ++ [DetachedFailed this last]).
      by rewrite E, EwR, <- !app_assoc.
  - destruct res; eauto.
  - intros Hc Hall. apply Hidle in Hc.
    destruct (retryLoop_exhausted ext this options 15 outcomes renamed times
                0%nat None wR HR Hc)
      as (w' & tail' & EL' & E' & C').
    { intros n Hn. apply Hall. lia. }
    rewrite EL in EL'. inversion EL'; subst w' res.
    rewrite E in E'. apply app_inv_head in E'. subst tail'.
    split; [done|]. by destruct times.
Qed.


(** Claim C8.  Whenever [detached] decides to reopen, it closes the link,
    renames the receiver with a generated name, and hands [_init] to the
    retry orchestrator with the configured number of attempts and a delay of
    15 seconds.  Every attempt, and every [createReceiver] call, carries
    the options with the new name; [_init] is called at most the configured
    number of times; every wait lasts 15 seconds.  When every attempt is
    refused with a retryable error, all the attempts are made and the error
    of the last one is what [detached] reports in its [catch]. *)
Theorem reopening_renames_and_retries (ext : Externals) (this : nat)
    (err : option Thrown) (outcomes : nat -> InitOutcome) (w : World)
    (r : MessageReceiver) :
  let fresh := getUniqueName ext (entityPath (context w)) (entropy w) in
  let options := receiverOptions (setName fresh (clearTokenRenewal r)) in
  let times := defaultConnectionRetryAttempts ext in
  receivers w !! this = Some r ->
  shouldReopen ext err (wasCloseInitiated w r) = true ->
  exists attempts ending,
    callsSince w (detached ext this err outcomes w)
    = CloseLink this (_receiver r) :: RetryCalled times 15
        :: attempts ++ ending
    /\ opt_name options = fresh
    /\ Forall (establishing this options 15) attempts
    /\ (length (filter isInitCalled attempts) <= times)%nat
    /\ (ending = [] \/ exists last, ending = [DetachedFailed this last])
    /\ (isConnecting r = false ->
        (forall n, (n < times)%nat ->
                   exists e, refused (outcomes n) = Some e
                             /\ retryable (translate ext e) = true) ->
        length (filter isInitCalled attempts) = times
        /\ ending
           = [DetachedFailed this
                (match times with
                 | O => None
                 | S k => translate ext <$> refused (outcomes k)
                 end)]).
Proof.
  intros fresh options times H Hs.
  destruct (detached_reopen_calls ext this err outcomes w r H Hs)
    as (attempts & ending & E & N & F & C & D & _ & _ & X).
  exists attempts, ending. auto 10.
Qed.

(** The theorem for a streaming receiver whose three attempts are all
    refused with a retryable error: three calls of [_init], then the report
    of the last error. *)
Lemma reopening_renames_and_retries_witness :
  exists attempts,
    callsSince
      (mkWorld (mkClientEntityContext "orders" None (Some 10%nat) None)
         {[10%nat := mkMessageReceiver "orders-s" "orders" streaming
                       peekLock 1 false (Some 0%nat) None]}
         {[0%nat := mkLink "orders-s" true false]} 1 0 [])
      (detached sampleExternals 10 None
         (fun _ =>
            CreateReceiverFails
              (AmqpFault
                 (mkAmqpError (Some "amqp:connection:forced"%string) None)))
         (mkWorld (mkClientEntityContext "orders" None (Some 10%nat) None)
            {[10%nat := mkMessageReceiver "orders-s" "orders" streaming
                          peekLock 1 false (Some 0%nat) None]}
            {[0%nat := mkLink "orders-s" true false]} 1 0 []))
    = CloseLink 10 (Some 0%nat) :: RetryCalled 3 15
        :: attempts
        ++ [DetachedFailed 10
              (Some (mkMessagingError "ConnectionForcedError" true ""))]
    /\ length (filter isInitCalled attempts) = 3%nat.
Proof.
  destruct (reopening_renames_and_retries sampleExternals 10 None
              (fun _ =>
                 CreateReceiverFails
                   (AmqpFault
                      (mkAmqpError (Some "amqp:connection:forced"%string)
                         None)))
              (mkWorld (mkClientEntityContext "orders" None (Some 10%nat) None)
                 {[10%nat := mkMessageReceiver "orders-s" "orders" streaming
                               peekLock 1 false (Some 0%nat) None]}
                 {[0%nat := mkLink "orders-s" true false]} 1 0 [])
              (mkMessageReceiver "orders-s" "orders" streaming peekLock 1
                 false (Some 0%nat) None))
    as (attempts & ending & E & _ & _ & _ & _ & X); [reflexivity|reflexivity|].
  destruct X as [C ->]; [reflexivity| |].
  - intros n _. eexists. split; reflexivity.
  - exists attempts. split; [exact E|exact C].
Defined.







(** [register] fills only an empty slot of the receiver's own role. *)
Lemma register_slots this ty c :
  slot ty (register this ty c)
  = match slot ty c with
    | Some other => Some other
    | None => Some this
    end
  /\ slot (otherRole ty) (register this ty c) = slot (otherRole ty) c
  /\ sender (register this ty c) = sender c
  /\ entityPath (register this ty c) = entityPath c.
Proof.
  destruct ty, c as [p s st ba]; simpl; destruct st, ba; simpl; auto.
Qed.

(** What [_init] does to the entity context. *)
Lemma init_context ext this options outcome w r :
  receivers w !! this = Some r ->
  context (fst (_init ext this options outcome w))
  = if negb (isOpen w r) && negb (isConnecting r)
    then match outcome with
         | Established _ => register this (receiverType r) (context w)
         | _ => context w
         end
    else context w.
Proof.
  intros H. unfold _init. simpl. rewrite H.
  assert (isOpen (emit [InitCalled this options] w) r = isOpen w r) as -> by done.
  destruct (negb (isOpen w r) && negb (isConnecting r)); [|done].
  destruct outcome as [e|e|[e|]]; simpl; rewrite ?lookup_insert_eq; done.
Qed.

Lemma deleteFromCache_after this w r :
  receivers w !! this = Some r ->
  slot (receiverType r) (context (_deleteFromCache this w)) = None
  /\ slot (otherRole (receiverType r)) (context (_deleteFromCache this w))
     = slot (otherRole (receiverType r)) (context w)
  /\ sender (context (_deleteFromCache this w)) = sender (context w)
  /\ receivers (_deleteFromCache this w) !! this = Some (setLink None r).
Proof.
  intros H. unfold _deleteFromCache. rewrite H.
  destruct (receiverType r); simpl; rewrite lookup_insert_eq; done.
Qed.

(** Claim C9.  [_init] never changes an occupied slot of the receiver's
    own role, whatever the attempt meets; it fills the slot with the
    receiver itself when the slot is empty and the link is established; it
    leaves the slot of the other role and the sender alone.
    [_deleteFromCache], and [close()] on a receiver with a link, empty the
    slot of the receiver's own role and leave the other slot and the sender
    as they were. *)
Theorem registration_keeps_to_its_slot (ext : Externals) (this : nat)
    (w : World) (r : MessageReceiver) :
  let ty := receiverType r in
  receivers w !! this = Some r ->
  (forall options outcome,
     let w' := fst (_init ext this options outcome w) in
     (forall other, slot ty (context w) = Some other ->
                    slot ty (context w') = Some other)
     /\ (slot ty (context w') = slot ty (context w)
         \/ slot ty (context w) = None /\ slot ty (context w') = Some this)
     /\ slot (otherRole ty) (context w') = slot (otherRole ty) (context w)
     /\ sender (context w') = sender (context w))
  /\ (forall options tokenRenewal,
        isOpen w r = false -> isConnecting r = false ->
        slot ty (context w) = None ->
        slot ty (context (fst (_init ext this options
                                 (Established tokenRenewal) w)))
        = Some this)
  /\ (slot ty (context (_deleteFromCache this w)) = None
      /\ slot (otherRole ty) (context (_deleteFromCache this w))
         = slot (otherRole ty) (context w)
      /\ sender (context (_deleteFromCache this w)) = sender (context w))
  /\ (forall link, _receiver r = Some link ->
        slot ty (context (close this w)) = None
        /\ slot (otherRole ty) (context (close this w))
           = slot (otherRole ty) (context w)
        /\ sender (context (close this w)) = sender (context w)).
Proof.
  intros ty H.
  destruct (register_slots this ty (context w)) as (R1 & R2 & R3 & _).
  destruct (deleteFromCache_after this w r H) as (D1 & D2 & D3 & _).
  split; [|split; [|split]].
  - intros options outcome w'. unfold w'.
    rewrite (init_context ext this options outcome w r H). fold ty.
    destruct (negb (isOpen w r) && negb (isConnecting r));
      [|by repeat split; auto].
    destruct outcome; try (by repeat split; auto).
    rewrite R1, R2, R3. destruct (slot ty (context w)) eqn:E.
    + repeat split; auto.
    + repeat split; auto. intros other Ho. discriminate.
  - intros options tokenRenewal Ho Hc He.
    rewrite (init_context ext this options _ w r H), Ho, Hc. simpl.
    fold ty. by rewrite R1, He.
  - done.
  - intros link Hl. unfold close. rewrite H, Hl. by simpl.
Qed.

(** The theorem for a streaming receiver that establishes its link while
    another streaming receiver, 7, holds the slot. *)
Lemma registration_keeps_to_its_slot_witness :
  slot streaming
    (context
       (fst (_init sampleExternals 10 None (Established None)
               (mkWorld (mkClientEntityContext "orders" None (Some 7%nat) None)
                  {[10%nat := mkMessageReceiver "orders-s" "orders" streaming
                                peekLock 1 false None None]}
                  ∅ 0 0 []))))
  = Some 7%nat.
Proof.
  destruct (registration_keeps_to_its_slot sampleExternals 10
              (mkWorld (mkClientEntityContext "orders" None (Some 7%nat) None)
                 {[10%nat := mkMessageReceiver "orders-s" "orders" streaming
                               peekLock 1 false None None]}
                 ∅ 0 0 [])
              (mkMessageReceiver "orders-s" "orders" streaming peekLock 1
                 false None None))
    as (Hinit & _); [reflexivity|].
  destruct (Hinit None (Established None)) as (Hkeep & _).
  apply Hkeep. reflexivity.
Defined.

(** Claim C10.  [close()] on a receiver without a link changes nothing,
    and closing twice leaves the same world as closing once. *)
Theorem close_is_idempotent (this : nat) (w : World) :
  (forall r, receivers w !! this = Some r -> _receiver r = None ->
             close this w = w)
  /\ close this (close this w) = close this w.
Proof.
  split.
  - intros r H Hl. unfold close. by rewrite H, Hl.
  - unfold close at 2 3. destruct (receivers w !! this) as [r|] eqn:H.
    + destruct (_receiver r) as [link|] eqn:Hl.
      * destruct (deleteFromCache_after this w r H) as (_ & _ & _ & Hr).
        pose proof (closeLink_receiver this (Some link) _ _ Hr) as Hr'.
        unfold close. by rewrite Hr'.
      * unfold close. by rewrite H, Hl.
    + unfold close. by rewrite H.
Qed.

(** Claim C5 fails on the code: the third block of the entity context's
    [detached] reads the batching slot again, so a registered streaming
    receiver that is not connecting is not called at all. *)
Lemma contextDetached_skips_streaming_receiver :
  let forced :=
    AmqpFault (mkAmqpError (Some "amqp:connection:forced"%string) None) in
  let streamer :=
    mkMessageReceiver "orders-s" "orders" streaming peekLock 1 false
      (Some 0%nat) None in
  let w :=
    mkWorld (mkClientEntityContext "orders" None (Some 10%nat) None)
      {[10%nat := streamer]} {[0%nat := mkLink "orders-s" true false]}
      1 0 [] in
  streamingReceiver (context w) = Some 10%nat
  /\ receivers w !! 10%nat = Some streamer
  /\ isConnecting streamer = false
  /\ effects (contextDetached sampleExternals (Some forced)
                (fun _ => Established None) (fun _ => Established None) w)
     = [].
Proof. vm_compute. repeat split; reflexivity. Qed.

(** With both receivers registered the batching receiver is called twice
    and the streaming receiver not at all. *)
Lemma contextDetached_calls_batching_receiver_twice :
  let forced :=
    AmqpFault (mkAmqpError (Some "amqp:connection:forced"%string) None) in
  let streamer :=
    mkMessageReceiver "orders-s" "orders" streaming peekLock 1 false
      (Some 0%nat) None in
  let batcher :=
    mkMessageReceiver "orders-b" "orders" batching peekLock 1 false
      (Some 1%nat) None in
  let w :=
    mkWorld
      (mkClientEntityContext "orders" (Some (mkMessageSender "orders-out" false))
         (Some 10%nat) (Some 11%nat))
      {[10%nat := streamer; 11%nat := batcher]}
      {[0%nat := mkLink "orders-s" true false;
        1%nat := mkLink "orders-b" true false]}
      2 0 [] in
  omap detachedCalls
    (effects (contextDetached sampleExternals (Some forced)
                (fun _ => Established None) (fun _ => Established None) w))
  = [11%nat; 11%nat].
Proof. vm_compute. reflexivity. Qed.

(** In general: when the batching slot is empty, the entity context's
    [detached] calls no receiver, whatever the streaming slot holds. *)
Lemma contextDetached_without_batching_receiver (ext : Externals)
    (error : option Thrown) (first second : nat -> InitOutcome) (w : World) :
  batchingReceiver (context w) = None ->
  omap detachedCalls
    (callsSince w (contextDetached ext error first second w)) = [].
Proof.
  intros H. unfold contextDetached.
  destruct (sender (context w)) as [s|]; [destruct (sender_isConnecting s)|];
    simpl; rewrite H; simpl; rewrite ?H.
  - unfold callsSince. by rewrite drop_all.
  - rewrite (callsSince_app w _ [SenderDetached (sender_name s)]); done.
  - unfold callsSince. by rewrite drop_all.
Qed.

End LifecycleFacts.

(* ===================================================================== *)
(** ** Further facts about settlement *)
(* ===================================================================== *)

Module SettlementRuns.
Import Settlement SettlementFacts SettlementAux.

Lemma dispositionFrame_unrecognised d op o :
  matchesOperation op = false -> dispositionFrame d op o = None.
Proof.
  unfold matchesOperation, dispositionFrame. simpl. intros H.
  repeat (apply orb_false_elim in H as [H ?]).
  by repeat match goal with E : String.eqb _ _ = false |- _ => rewrite E; clear E end.
Qed.

Section Runs.
Context (ext : Externals).

Lemma frames_step e r :
  frames (step ext e r) = frames r ++ option_list (sentFrame e).
Proof.
  destruct e as [d op o|d|t]; simpl.
  - unfold settleMessage. destruct (matchesOperation op) eqn:E; simpl; [done|].
    by rewrite dispositionFrame_unrecognised, app_nil_r.
  - unfold _onSettled. destruct d as [d|]; [|by rewrite app_nil_r].
    destruct (remote_settled d); [|by rewrite app_nil_r].
    destruct (_ !! id d); simpl; by rewrite app_nil_r.
  - unfold timeoutFires. destruct (timers r !! t); simpl; by rewrite app_nil_r.
Qed.

Lemma frames_run es r :
  frames (run ext es r) = frames r ++ omap sentFrame es.
Proof.
  revert r. induction es as [|e es IH]; intros r; simpl.
  - by rewrite app_nil_r.
  - rewrite IH, frames_step, <- app_assoc. f_equal.
    by destruct (sentFrame e).
Qed.

Lemma accounted_step e r :
  wf r -> accounted r -> accounted (step ext e r).
Proof.
  intros W A. pose proof W as [W1 W2 W3 W4 W5].
  destruct e as [d op o|d|t]; simpl.
  - unfold settleMessage. destruct (negb (matchesOperation op)); simpl.
    + intros p Hp. simpl in Hp. unfold timesSettled. simpl.
      rewrite count_snoc. destruct (decide (nextPromise r = p)) as [<-|Hne].
      * left. specialize (W5 (nextPromise r)). unfold timesSettled in W5.
        rewrite W5 by lia. done.
      * destruct (A p) as [H|H]; [lia| |].
        -- left. unfold timesSettled in H. lia.
        -- right. exact H.
    + intros p Hp. simpl in Hp.
      destruct (decide (nextPromise r = p)) as [<-|Hne].
      * right. exists (nextTimer r), (mkTimeoutTask (messageDispositionTimeout ext) (id d) (nextPromise r)).
        simpl. by rewrite lookup_insert_eq.
      * destruct (A p) as [H|(t & task & Ht & Hq)]; [lia| |].
        -- by left.
        -- right. exists t, task. simpl. split; [|done].
           destruct (W2 _ _ Ht) as (? & _). rewrite lookup_insert_ne by lia. done.
  - unfold _onSettled. destruct d as [d|]; [|done].
    destruct (remote_settled d); [|done].
    destruct (_deliveryDispositionMap r !! id d) as [pl|] eqn:Hm; [|done].
    destruct (W1 _ _ Hm) as (task & Ht & Hd & Hpp).
    destruct (W2 _ _ Ht) as (_ & _ & H0).
    intros p Hp. simpl in Hp. unfold timesSettled. simpl. rewrite count_snoc.
    destruct (decide (promise pl = p)) as [<-|Hne].
    + left. rewrite Hpp in H0. unfold timesSettled in H0. lia.
    + destruct (A p Hp) as [H|(t' & task' & Ht' & Hq)].
      * left. unfold timesSettled in H. lia.
      * right. exists t', task'. simpl. split; [|done].
        rewrite lookup_delete_ne; [done|]. intros Heq. subst t'. congruence.
  - unfold timeoutFires. destruct (timers r !! t) as [task|] eqn:Ht; [|done].
    destruct (W2 _ _ Ht) as (_ & _ & H0).
    intros p Hp. simpl in Hp. unfold timesSettled. simpl. rewrite count_snoc.
    destruct (decide (task_promise task = p)) as [<-|Hne].
    + left. unfold timesSettled in H0. lia.
    + destruct (A p Hp) as [H|(t' & task' & Ht' & Hq)].
      * left. unfold timesSettled in H. lia.
      * right. exists t', task'. simpl. split; [|done].
        rewrite lookup_delete_ne; [done|]. intros Heq. subst t'. congruence.
Qed.

Lemma accounted_run es r :
  wf r -> accounted r -> accounted (run ext es r).
Proof.
  revert r. induction es as [|e es IH]; intros r W A; simpl; [done|].
  apply IH; [by apply wf_step|by apply accounted_step].
Qed.

End Runs.

Lemma sentFrame_recognised e :
  is_Some (sentFrame e) <-> recognisedCall e = true.
Proof.
  destruct e as [d op o|d|t]; simpl;
    try (split; [intros [? ?]; discriminate|discriminate]).
  destruct (matchesOperation op) eqn:E.
  - destruct (dispositionFrame_recognised d op
                (match o with
                 | Some o' => o'
                 | None => mkDispositionOptions None None
                 end) E) as (f & -> & _). split; eauto.
  - rewrite dispositionFrame_unrecognised by done.
    split; [intros [? ?]; discriminate|discriminate].
Qed.

Lemma sent_count es :
  length (omap sentFrame es) = length (filter recognisedCall es).
Proof.
  induction es as [|e es IH]; [done|].
  change (omap sentFrame (e :: es))
    with (match sentFrame e with
          | Some y => y :: omap sentFrame es
          | None => omap sentFrame es
          end).
  pose proof (sentFrame_recognised e) as [H1 H2].
  destruct (sentFrame e) as [f|].
  - rewrite filter_cons_True by (rewrite H1; eauto). simpl. by rewrite IH.
  - rewrite filter_cons_False; [done|]. intros H.
    apply Is_true_true in H. destruct (H2 H). discriminate.
Qed.

(** Property X1.  Over any sequence of [settleMessage] calls, settled acknowledgements and
    timer expiries on a new receiver, the disposition frames sent are those of
    the calls with a recognised operation, one per such call and in the order
    of the calls: [_onSettled] and the timeout closure send no frame, and a
    call with an unrecognised operation sends none. *)
Theorem frames_follow_recognised_calls (ext : Externals) (es : list Event) :
  frames (run ext es newReceiver) = omap sentFrame es
  /\ length (frames (run ext es newReceiver))
     = length (filter recognisedCall es).
Proof.
  rewrite frames_run. simpl. split; [done|]. apply sent_count.
Qed.

(** Property X2.  No promise of [settleMessage] is left hanging.  After any sequence of
    events on a new receiver, each promise handed out so far either has been
    settled exactly once and has no timer left, or has not been settled and has
    a pending timer whose expiry resolves it. *)
Theorem every_promise_is_settled_or_awaited (ext : Externals)
    (es : list Event) (p : nat) :
  (p < nextPromise (run ext es newReceiver))%nat ->
  (timesSettled p (run ext es newReceiver) = 1%nat
   /\ ~ awaited p (run ext es newReceiver))
  \/ (timesSettled p (run ext es newReceiver) = 0%nat
      /\ exists t task,
           timers (run ext es newReceiver) !! t = Some task
           /\ task_promise task = p
           /\ settlements (timeoutFires t (run ext es newReceiver))
              = settlements (run ext es newReceiver) ++ [(p, Resolved)]).
Proof.
  intros Hp. pose proof (wf_reachable ext es) as W.
  assert (accounted (run ext es newReceiver)) as A.
  { apply accounted_run; [apply wf_new|]. intros q Hq. simpl in Hq. lia. }
  destruct (A p Hp) as [H|(t & task & Ht & Hq)].
  - left. split; [done|]. intros (t & task & Ht & Hq).
    destruct (wf_timer_fresh _ W _ _ Ht) as (_ & _ & H0). rewrite Hq in H0. lia.
  - right. destruct (wf_timer_fresh _ W _ _ Ht) as (_ & _ & H0).
    rewrite Hq in H0. split; [done|]. exists t, task.
    repeat split; try done. unfold timeoutFires. rewrite Ht. simpl. by rewrite Hq.
Qed.

(** The theorem for the promise of one [complete] call. *)
Lemma every_promise_is_settled_or_awaited_witness :
  let r := run sampleExternals
             [CallSettle (mkDelivery 7 false None) "complete" None]
             newReceiver in
  (timesSettled 0 r = 1%nat /\ ~ awaited 0 r)
  \/ (timesSettled 0 r = 0%nat
      /\ exists t task,
           timers r !! t = Some task
           /\ task_promise task = 0%nat
           /\ settlements (timeoutFires t r)
              = settlements r ++ [(0%nat, Resolved)]).
Proof.
  apply (every_promise_is_settled_or_awaited sampleExternals
           [CallSettle (mkDelivery 7 false None) "complete" None] 0%nat).
  vm_compute. lia.
Defined.

(** Property X3.  A duplicate is harmless, in every state: a settled acknowledgement given to
    [_onSettled] a second time changes nothing, and neither does a timer
    handle that fires a second time. *)
Theorem repeated_events_change_nothing (ext : Externals)
    (d : option Delivery) (t : nat) (r : Receiver) :
  _onSettled ext d (_onSettled ext d r) = _onSettled ext d r
  /\ timeoutFires t (timeoutFires t r) = timeoutFires t r.
Proof.
  split.
  - unfold _onSettled at 2 3. destruct d as [d|]; [|done].
    destruct (remote_settled d) eqn:Hs; [|by unfold _onSettled; rewrite Hs].
    destruct (_deliveryDispositionMap r !! id d) eqn:Hm.
    + unfold _onSettled. rewrite Hs. simpl. by rewrite lookup_delete_eq.
    + unfold _onSettled. by rewrite Hs, Hm.
  - unfold timeoutFires at 2 3. destruct (timers r !! t) eqn:Ht.
    + unfold timeoutFires. simpl. by rewrite lookup_delete_eq.
    + unfold timeoutFires. by rewrite Ht.
Qed.

End SettlementRuns.

(* ===================================================================== *)
(** ** Further facts about message handling and lock renewal *)
(* ===================================================================== *)

Module HandlingRuns.
Import Handling HandlingFacts HandlingAux.

Section Runs.
Context (ext : Externals) (cfg : Config).

(** The settlement the handler's result leads to. *)
Lemma onMessageSettled_exact result s :
  phase s = AwaitOnMessage ->
  effects (onMessageSettled ext cfg result s)
  = effects s
      ++ (if autoRenewLock cfg then [ClearTimeout (timer s)] else [])
      ++ match result with
         | Some err =>
             if negb (String.eqb (errName (translate ext err))
                        (messageLockLostName ext))
                && ReceiveMode_eqb (receiveMode cfg) peekLock
             then [Abandon] else []
         | None =>
             if autoComplete cfg && ReceiveMode_eqb (receiveMode cfg) peekLock
             then [Complete] else []
         end.
Proof.
  intros Hph. unfold onMessageSettled. rewrite Hph.
  assert (effects (clearTimerAndStopExecution cfg s)
          = effects s
              ++ (if autoRenewLock cfg then [ClearTimeout (timer s)] else []))
    as Heff.
  { unfold clearTimerAndStopExecution.
    destruct (autoRenewLock cfg); simpl; [done|by rewrite app_nil_r]. }
  destruct result as [err|]; destruct (_ && _); simpl; rewrite Heff;
    by rewrite <- ?app_assoc, ?app_nil_r.
Qed.

Lemma settlements_of_run before after result now lockedUntil :
  phase (run ext cfg before (_onAmqpMessage ext cfg now lockedUntil))
  = AwaitOnMessage ->
  filter isSettlement
    (effects (run ext cfg (before ++ OnMessageSettled result :: after)
                (_onAmqpMessage ext cfg now lockedUntil)))
  = match result with
    | Some err =>
        if negb (String.eqb (errName (translate ext err))
                   (messageLockLostName ext))
           && ReceiveMode_eqb (receiveMode cfg) peekLock
        then [Abandon] else []
    | None =>
        if autoComplete cfg && ReceiveMode_eqb (receiveMode cfg) peekLock
        then [Complete] else []
    end.
Proof.
  intros Hph.
  set (s := run ext cfg before (_onAmqpMessage ext cfg now lockedUntil)) in *.
  pose proof (inv_reached ext cfg now lockedUntil before) as I. fold s in I.
  destruct (onMessageSettled_effects ext cfg result s I Hph) as (St & _).
  destruct (stopped_run ext cfg after _ St) as (_ & tail & E & F & _).
  rewrite run_app. simpl. fold s. rewrite E, onMessageSettled_exact by done.
  rewrite !filter_app, (inv_unsettled _ _ I Hph), (reports_settle_nothing tail F).
  rewrite app_nil_r. simpl.
  assert (filter isSettlement
            (if autoRenewLock cfg then [ClearTimeout (timer s)] else []) = [])
    as -> by (by destruct (autoRenewLock cfg)).
  simpl. destruct result as [err|]; by destruct (_ && _).
Qed.


(** The counts of settlements and of their failure reports. *)
Lemma settledBy_start now lockedUntil :
  settledBy (_onAmqpMessage ext cfg now lockedUntil).
Proof.
  unfold settledBy, _onAmqpMessage.
  destruct (autoRenewLock cfg); simpl; [|done].
  unfold autoRenewLockTask. by destruct (_ && _).
Qed.

Lemma settledBy_emit_other es s :
  filter isSettlement es = [] -> filter isTranslatedReport es = [] ->
  settledBy s -> settledBy (emit es s).
Proof.
  intros H1 H2. unfold settledBy. simpl.
  by rewrite !filter_app, H1, H2, !app_nil_r.
Qed.

Lemma settledBy_step e s : settledBy s -> settledBy (step ext cfg e s).
Proof.
  intros K. destruct e as [h now|result now|result|result]; simpl.
  - unfold timerFires. case_bool_decide; [|done].
    revert K. unfold settledBy. simpl.
    by rewrite !filter_app, !app_nil_r.
  - unfold renewLockSettled. destruct (renewing s); [|done].
    destruct result as [err|expiry].
    + revert K. unfold settledBy. simpl. by rewrite !filter_app, !app_nil_r.
    + unfold autoRenewLockTask. simpl. destruct (_ && _); [|done].
      revert K. unfold settledBy. simpl. by rewrite !filter_app, !app_nil_r.
  - unfold onMessageSettled. destruct (phase s) eqn:Hph; try done.
    assert (length (filter isSettlement
                      (effects (clearTimerAndStopExecution cfg s))) = 0%nat
            /\ length (filter isTranslatedReport
                         (effects (clearTimerAndStopExecution cfg s))) = 0%nat)
      as [C1 C2].
    { revert K. unfold settledBy, clearTimerAndStopExecution. rewrite Hph.
      destruct (autoRenewLock cfg); simpl; [|done].
      by rewrite !filter_app, !app_nil_r. }
    destruct result as [err|]; destruct (_ && _); unfold settledBy; simpl;
      rewrite ?filter_app, ?length_app, ?C1, ?C2; simpl; lia.
  - unfold settlementSettled. revert K. unfold settledBy.
    destruct (phase s) eqn:Hph; try (by rewrite Hph);
      destruct result as [err|]; simpl;
      rewrite ?filter_app, ?length_app; simpl; lia.
Qed.

Lemma settledBy_run es s : settledBy s -> settledBy (run ext cfg es s).
Proof.
  revert s. induction es as [|e es IH]; intros s H; simpl; [done|].
  apply IH, settledBy_step, H.
Qed.

(** Once no timer is pending and no renewal is outstanding, the renewal
    never goes on. *)
Lemma quiet_step e s :
  quiet s ->
  quiet (step ext cfg e s)
  /\ exists tail,
       effects (step ext cfg e s) = effects s ++ tail
       /\ Forall (fun x => isRenewalCall x = false) tail.
Proof.
  intros [Hp Hr].
  assert (forall s', s' = s ->
            quiet s'
            /\ exists tail, effects s' = effects s ++ tail
                            /\ Forall (fun x => isRenewalCall x = false) tail)
    as Hsame.
  { intros s' ->. split; [done|]. exists []. by rewrite app_nil_r. }
  destruct e as [h now|result now|result|result]; simpl.
  - unfold timerFires. rewrite Hp.
    case_bool_decide as Hh; [by apply not_elem_of_empty in Hh|by apply Hsame].
  - unfold renewLockSettled. rewrite Hr. by apply Hsame.
  - unfold onMessageSettled. destruct (phase s); try by apply Hsame.
    assert (quiet (clearTimerAndStopExecution cfg s)
            /\ exists tail,
                 effects (clearTimerAndStopExecution cfg s) = effects s ++ tail
                 /\ Forall (fun x => isRenewalCall x = false) tail)
      as ([Qp Qr] & t1 & E1 & F1).
    { unfold clearTimerAndStopExecution.
      destruct (autoRenewLock cfg); [|by apply Hsame]. simpl. split.
      - split; [|done]. simpl. rewrite Hp. destruct (timer s); [|done].
        apply set_eq. intros x. rewrite elem_of_difference.
        split; [intros [Hx _]; done|intros Hx; by apply not_elem_of_empty in Hx].
      - eexists. split; [reflexivity|]. by repeat constructor. }
    destruct result as [err|]; destruct (_ && _); simpl;
      (split; [done|]); rewrite E1, <- ?app_assoc;
      eexists; (split; [reflexivity|]); rewrite ?app_nil_r;
      try (apply Forall_app; split); try done; by repeat constructor.
  - unfold settlementSettled.
    destruct (phase s); try (by apply Hsame); destruct result as [err|];
      simpl; try (by apply Hsame);
      (split; [done|]);
      first [ by (exists []; rewrite app_nil_r)
            | eexists; (split; [reflexivity|]); by repeat constructor ].
Qed.

Lemma quiet_run es s :
  quiet s ->
  exists tail,
    effects (run ext cfg es s) = effects s ++ tail
    /\ Forall (fun x => isRenewalCall x = false) tail.
Proof.
  revert s. induction es as [|e es IH]; intros s Q; simpl.
  - exists []. by rewrite app_nil_r.
  - destruct (quiet_step e s Q) as (Q1 & t1 & E1 & F1).
    destruct (IH _ Q1) as (t2 & E2 & F2).
    exists (t1 ++ t2). rewrite E2, E1, app_assoc. split; [done|].
    by apply Forall_app.
Qed.

(** The deadline of the renewal is fixed when the message arrives. *)
Lemma deadline_step e s :
  totalAutoLockRenewDuration (step ext cfg e s) = totalAutoLockRenewDuration s.
Proof.
  destruct e as [h now|result now|result|result]; simpl.
  - unfold timerFires. by case_bool_decide.
  - unfold renewLockSettled. destruct (renewing s); [|done].
    destruct result; [done|]. unfold autoRenewLockTask. simpl.
    by destruct (_ && _).
  - unfold onMessageSettled. destruct (phase s); try done.
    unfold clearTimerAndStopExecution.
    destruct result; destruct (_ && _); by destruct (autoRenewLock cfg).
  - unfold settlementSettled. destruct (phase s); try done; by destruct result.
Qed.

Lemma deadline_run es now lockedUntil :
  autoRenewLock cfg = true ->
  totalAutoLockRenewDuration
    (run ext cfg es (_onAmqpMessage ext cfg now lockedUntil))
  = now + maxAutoRenewDurationInSeconds cfg * 1000.
Proof.
  intros Ha.
  assert (forall s, totalAutoLockRenewDuration (run ext cfg es s)
                    = totalAutoLockRenewDuration s) as Hrun.
  { induction es as [|e es IH]; intros s; simpl; [done|].
    by rewrite IH, deadline_step. }
  rewrite Hrun. unfold _onAmqpMessage. rewrite Ha. simpl.
  unfold autoRenewLockTask. simpl. by destruct (_ && _).
Qed.

(** Without auto-renewal nothing is pending, ever. *)
Lemma no_renewal_step e s :
  autoRenewLock cfg = false ->
  continueExecution s = false /\ quiet s ->
  (continueExecution (step ext cfg e s) = false /\ quiet (step ext cfg e s))
  /\ exists tail,
       effects (step ext cfg e s) = effects s ++ tail
       /\ Forall (fun x => isRenewalActivity x = false
                           /\ forall c, x <> OnError (AsCaught c)) tail.
Proof.
  intros Ha (Hc & Hp & Hr).
  assert (forall s', s' = s ->
            (continueExecution s' = false /\ quiet s')
            /\ exists tail,
                 effects s' = effects s ++ tail
                 /\ Forall (fun x => isRenewalActivity x = false
                                     /\ forall c, x <> OnError (AsCaught c))
                      tail) as Hsame.
  { intros s' ->. split; [done|]. exists []. by rewrite app_nil_r. }
  destruct e as [h now|result now|result|result]; simpl.
  - unfold timerFires. rewrite Hp.
    case_bool_decide as Hh; [by apply not_elem_of_empty in Hh|by apply Hsame].
  - unfold renewLockSettled. rewrite Hr. by apply Hsame.
  - unfold onMessageSettled. destruct (phase s); try by apply Hsame.
    unfold clearTimerAndStopExecution. rewrite Ha.
    destruct result as [err|]; destruct (_ && _); simpl;
      (split; [done|]);
      first [ by (exists []; rewrite app_nil_r)
            | eexists; (split; [reflexivity|]);
              repeat (constructor || (intros; discriminate)) ].
  - unfold settlementSettled.
    destruct (phase s); try (by apply Hsame); destruct result as [err|];
      simpl; try (by apply Hsame);
      (split; [done|]);
      first [ by (exists []; rewrite app_nil_r)
            | eexists; (split; [reflexivity|]);
              repeat (constructor || (intros; discriminate)) ].
Qed.

Lemma no_renewal_run es s :
  autoRenewLock cfg = false ->
  continueExecution s = false /\ quiet s ->
  exists tail,
    effects (run ext cfg es s) = effects s ++ tail
    /\ Forall (fun x => isRenewalActivity x = false
                        /\ forall c, x <> OnError (AsCaught c)) tail.
Proof.
  intros Ha. revert s. induction es as [|e es IH]; intros s Q; simpl.
  - exists []. by rewrite app_nil_r.
  - destruct (no_renewal_step e s Ha Q) as (Q1 & t1 & E1 & F1).
    destruct (IH _ Q1) as (t2 & E2 & F2).
    exists (t1 ++ t2). rewrite E2, E1, app_assoc. split; [done|].
    by apply Forall_app.
Qed.

(** In receive-and-delete mode a run never gets past calling the handler. *)
Lemma handler_only_step e s :
  receiveMode cfg = receiveAndDelete -> autoRenewLock cfg = false ->
  (effects s = [CallOnMessage] /\ quiet s
   /\ (phase s = AwaitOnMessage \/ phase s = Returned)) ->
  effects (step ext cfg e s) = [CallOnMessage] /\ quiet (step ext cfg e s)
  /\ (phase (step ext cfg e s) = AwaitOnMessage
      \/ phase (step ext cfg e s) = Returned).
Proof.
  intros Hm Ha (He & [Hp Hr] & Hph).
  destruct e as [h now|result now|result|result]; simpl.
  - unfold timerFires. rewrite Hp.
    case_bool_decide as Hh; [by apply not_elem_of_empty in Hh|done].
  - unfold renewLockSettled. by rewrite Hr.
  - unfold onMessageSettled, clearTimerAndStopExecution.
    rewrite Hm, Ha. simpl.
    destruct Hph as [E|E]; rewrite E.
    + destruct result; rewrite andb_false_r; simpl; repeat split; auto.
    + repeat split; auto.
  - unfold settlementSettled.
    destruct Hph as [E|E]; rewrite E; repeat split; auto.
Qed.

Lemma alternating_start now lockedUntil :
  alternating (_onAmqpMessage ext cfg now lockedUntil).
Proof.
  unfold alternating, _onAmqpMessage.
  destruct (autoRenewLock cfg); simpl; [|repeat split; (done || lia)].
  unfold autoRenewLockTask. destruct (_ && _); simpl;
    repeat split; (done || lia).
Qed.

Lemma alternating_step e s :
  inv cfg s -> alternating s -> alternating (step ext cfg e s).
Proof.
  intros I K. pose proof K as (K1 & K2 & K3).
  destruct e as [h now|result now|result|result]; simpl.
  - unfold timerFires. case_bool_decide as Hh; [|done].
    assert (pending s <> ∅) as Hne.
    { intros E. rewrite E in Hh. by apply not_elem_of_empty in Hh. }
    specialize (K2 Hne). unfold alternating. simpl.
    rewrite !filter_app, !length_app, (pending_only_timer cfg s h I Hh). simpl.
    repeat split; (done || lia).
  - unfold renewLockSettled. destruct (renewing s) eqn:Hr; [|done].
    specialize (K1 eq_refl). pose proof (inv_renewing _ _ I Hr) as Hp.
    destruct result as [err|expiry].
    + unfold alternating. simpl. rewrite Hp, !filter_app, !length_app. simpl.
      repeat split; (done || lia).
    + unfold autoRenewLockTask. simpl. destruct (_ && _).
      * unfold alternating. simpl. rewrite !filter_app, !length_app. simpl.
        repeat split; (done || lia).
      * unfold alternating. simpl. rewrite Hp. repeat split; (done || lia).
  - unfold onMessageSettled. destruct (phase s) eqn:Hph; try done.
    assert (alternating (clearTimerAndStopExecution cfg s)) as C.
    { unfold clearTimerAndStopExecution.
      destruct (autoRenewLock cfg); [|done].
      unfold alternating. simpl.
      rewrite (pending_cleared cfg s I), !filter_app, !length_app. simpl.
      rewrite !Nat.add_0_r. repeat split; (done || lia || auto). }
    revert C. unfold alternating.
    destruct result as [err|]; destruct (_ && _); simpl;
      rewrite ?filter_app, ?length_app; simpl; rewrite ?Nat.add_0_r; done.
  - unfold settlementSettled.
    destruct (phase s) eqn:Hph; try done; destruct result as [err|];
      unfold alternating; simpl;
      rewrite ?filter_app, ?length_app; simpl; rewrite ?Nat.add_0_r; done.
Qed.

Lemma alternating_run es s :
  inv cfg s -> alternating s -> alternating (run ext cfg es s).
Proof.
  revert s. induction es as [|e es IH]; intros s I K; simpl; [done|].
  apply IH; [by apply inv_step|by apply alternating_step].
Qed.

End Runs.

(** Property X4.  The settlements of a whole run of [_onAmqpMessage] are decided by the result
    of the application handler alone: [complete()] and nothing else when the
    handler succeeded with [autoComplete] in peek-lock mode, [abandon()] and
    nothing else when it threw an error that does not translate to the lock-lost
    error in peek-lock mode, no settlement in every other case; whatever events
    arrive before the handler settles and after it. *)
Theorem settlement_follows_handler_result (ext : Externals) (cfg : Config)
    (now lockedUntil : Z) (before after : list Event)
    (result : option Thrown) :
  let start := _onAmqpMessage ext cfg now lockedUntil in
  phase (run ext cfg before start) = AwaitOnMessage ->
  filter isSettlement
    (effects (run ext cfg (before ++ OnMessageSettled result :: after) start))
  = match result with
    | Some err =>
        if negb (String.eqb (errName (translate ext err))
                   (messageLockLostName ext))
           && ReceiveMode_eqb (receiveMode cfg) peekLock
        then [Abandon] else []
    | None =>
        if autoComplete cfg && ReceiveMode_eqb (receiveMode cfg) peekLock
        then [Complete] else []
    end.
Proof. intros start Hph. by apply settlements_of_run. Qed.

(** The theorem for a handler that succeeds with [autoComplete] after the first timer fired. *)
Lemma settlement_follows_handler_result_witness :
  filter isSettlement
    (effects
       (run sampleExternals (constructed (mkReceiveOptions None (Some true) None))
          ([TimerDue 0 20000]
           ++ OnMessageSettled None :: [SettlementSettled None])
          (_onAmqpMessage sampleExternals
             (constructed (mkReceiveOptions None (Some true) None)) 0 30000)))
  = [Complete].
Proof.
  exact (settlement_follows_handler_result sampleExternals
           (constructed (mkReceiveOptions None (Some true) None)) 0 30000
           [TimerDue 0 20000] [SettlementSettled None] None eq_refl).
Defined.

(** Property X5.  In every run of [_onAmqpMessage] at most one settlement ([abandon()] or
    [complete()]) is issued for the message, and the error callback receives the
    translated error of a failed settlement at most as often as a settlement was
    issued. *)
Theorem at_most_one_settlement (ext : Externals) (cfg : Config)
    (now lockedUntil : Z) (es : list Event) :
  let final := run ext cfg es (_onAmqpMessage ext cfg now lockedUntil) in
  (length (filter isTranslatedReport (effects final))
   <= length (filter isSettlement (effects final)) <= 1)%nat.
Proof.
  intros final.
  pose proof (settledBy_run ext cfg es _ (settledBy_start ext cfg now lockedUntil))
    as K.
  fold final in K. unfold settledBy in K. destruct (phase final); lia.
Qed.

(** Property X6.  A receiver constructed in receive-and-delete mode does nothing for a message
    but call the application handler, whatever its other options and whatever
    events arrive: no timer, no [renewLock], no settlement, no call of the error
    callback. *)
Theorem receiveAndDelete_only_calls_handler (ext : Externals)
    (options : ReceiveOptions) (now lockedUntil : Z) (es : list Event) :
  opt_receiveMode options = Some receiveAndDelete ->
  effects (run ext (constructed options) es
             (_onAmqpMessage ext (constructed options) now lockedUntil))
  = [CallOnMessage].
Proof.
  intros Hm.
  assert (receiveMode (constructed options) = receiveAndDelete) as Hr.
  { unfold constructed. simpl. by rewrite Hm. }
  assert (autoRenewLock (constructed options) = false) as Ha.
  { unfold constructed. simpl. rewrite Hm. simpl. by rewrite andb_false_r. }
  set (cfg := constructed options) in *.
  assert (forall s,
            (effects s = [CallOnMessage] /\ quiet s
             /\ (phase s = AwaitOnMessage \/ phase s = Returned)) ->
            effects (run ext cfg es s) = [CallOnMessage]) as Hrun.
  { induction es as [|e es IH]; intros s K; simpl; [by destruct K|].
    apply IH. by apply handler_only_step. }
  apply Hrun. unfold _onAmqpMessage. rewrite Ha. simpl.
  repeat split; auto.
Qed.

(** The theorem for a receive-and-delete receiver with [autoComplete]. *)
Lemma receiveAndDelete_only_calls_handler_witness :
  effects
    (run sampleExternals
       (constructed (mkReceiveOptions (Some receiveAndDelete) (Some true) None))
       [OnMessageSettled None; SettlementSettled None]
       (_onAmqpMessage sampleExternals
          (constructed
             (mkReceiveOptions (Some receiveAndDelete) (Some true) None))
          0 30000))
  = [CallOnMessage].
Proof.
  exact (receiveAndDelete_only_calls_handler sampleExternals
           (mkReceiveOptions (Some receiveAndDelete) (Some true) None)
           0 30000 [OnMessageSettled None; SettlementSettled None] eq_refl).
Defined.

(** Property X7.  A receiver constructed with a [maxAutoRenewDurationInSeconds] that is not
    positive never renews a lock: in every run there is no [setTimeout], no
    [clearTimeout], no [renewLock], and no renewal error reaches the error
    callback. *)
Theorem no_renewal_without_window (ext : Externals)
    (options : ReceiveOptions) (now lockedUntil : Z) (es : list Event) :
  maxAutoRenewDurationInSeconds (constructed options) <= 0 ->
  Forall (fun x => isRenewalActivity x = false
                   /\ forall c, x <> OnError (AsCaught c))
    (effects (run ext (constructed options) es
                (_onAmqpMessage ext (constructed options) now lockedUntil))).
Proof.
  intros Hw.
  assert (autoRenewLock (constructed options) = false) as Ha.
  { unfold constructed in *. simpl in *.
    apply andb_false_iff. left. by apply Z.ltb_ge. }
  set (cfg := constructed options) in *.
  destruct (no_renewal_run ext cfg es (_onAmqpMessage ext cfg now lockedUntil) Ha)
    as (tail & E & F).
  { unfold _onAmqpMessage. rewrite Ha. by simpl. }
  rewrite E. apply Forall_app. split; [|done].
  unfold _onAmqpMessage. rewrite Ha. simpl.
  repeat (constructor || (intros; discriminate)).
Qed.

(** The theorem for a receiver with a renewal window of zero seconds. *)
Lemma no_renewal_without_window_witness :
  Forall (fun x => isRenewalActivity x = false
                   /\ forall c, x <> OnError (AsCaught c))
    (effects
       (run sampleExternals
          (constructed (mkReceiveOptions None None (Some 0)))
          [TimerDue 0 20000; OnMessageSettled (Some (JsError "Error" "boom"))]
          (_onAmqpMessage sampleExternals
             (constructed (mkReceiveOptions None None (Some 0))) 0 30000))).
Proof.
  apply (no_renewal_without_window sampleExternals
           (mkReceiveOptions None None (Some 0)) 0 30000
           [TimerDue 0 20000; OnMessageSettled (Some (JsError "Error" "boom"))]).
  simpl. lia.
Defined.

(** Property X8.  The renewal ends at the deadline fixed when the message arrived
    ([Date.now()] plus [maxAutoRenewDurationInSeconds] times 1000).  When an
    outstanding [renewLock] settles successfully at or after that time, no timer
    is set, and for the rest of the run [renewLock] is not called and no timer
    is set. *)
Theorem renewal_ends_at_deadline (ext : Externals) (cfg : Config)
    (now lockedUntil : Z) (before after : list Event) (expiry later : Z) :
  let start := _onAmqpMessage ext cfg now lockedUntil in
  let s := run ext cfg before start in
  let final :=
    run ext cfg (before ++ RenewLockSettled (inr expiry) later :: after)
      start in
  renewing s = true ->
  now + maxAutoRenewDurationInSeconds cfg * 1000 <= later ->
  exists tail,
    effects final = effects s ++ tail
    /\ Forall (fun x => isRenewalCall x = false) tail.
Proof.
  intros start s final Hr Hlate.
  pose proof (inv_reached ext cfg now lockedUntil before) as I.
  fold start in I. fold s in I.
  assert (autoRenewLock cfg = true) as Ha.
  { destruct (autoRenewLock cfg) eqn:E; [done|].
    destruct (inv_no_renewal _ _ I E) as (_ & _ & ?). congruence. }
  pose proof (deadline_run ext cfg before now lockedUntil Ha) as Hd.
  fold start in Hd. fold s in Hd.
  unfold final. rewrite run_app.
  change (run ext cfg (RenewLockSettled (inr expiry) later :: after)
            (run ext cfg before start))
    with (run ext cfg after (renewLockSettled ext (inr expiry) later s)).
  unfold renewLockSettled, autoRenewLockTask. rewrite Hr. simpl.
  rewrite Hd. replace (later <? _) with false by (symmetry; by apply Z.ltb_ge).
  simpl.
  match goal with |- context [run ext cfg after ?x] => set (s1 := x) end.
  destruct (quiet_run ext cfg after s1) as (tail & E & F).
  { split; simpl; [by apply (inv_renewing _ _ I)|done]. }
  exists tail. by rewrite E.
Qed.

(** The theorem for a renewal that settles 300 seconds after the arrival. *)
Lemma renewal_ends_at_deadline_witness :
  exists tail,
    effects
      (run sampleExternals (constructed (mkReceiveOptions None None None))
         ([TimerDue 0 20000]
          ++ RenewLockSettled (inr 330000) 300000 :: [OnMessageSettled None])
         (_onAmqpMessage sampleExternals
            (constructed (mkReceiveOptions None None None)) 0 30000))
    = effects
        (run sampleExternals (constructed (mkReceiveOptions None None None))
           [TimerDue 0 20000]
           (_onAmqpMessage sampleExternals
              (constructed (mkReceiveOptions None None None)) 0 30000))
      ++ tail
    /\ Forall (fun x => isRenewalCall x = false) tail.
Proof.
  apply (renewal_ends_at_deadline sampleExternals
           (constructed (mkReceiveOptions None None None)) 0 30000
           [TimerDue 0 20000] [OnMessageSettled None] 330000 300000).
  - vm_compute. reflexivity.
  - simpl. lia.
Defined.

(** Property X9.  When an outstanding [renewLock] fails, the error callback is called with the
    caught error as it is, and the renewal is over: for the rest of the run
    [renewLock] is not called and no timer is set. *)
Theorem failed_renewal_is_reported_and_ends (ext : Externals) (cfg : Config)
    (now lockedUntil : Z) (before after : list Event) (err : Thrown)
    (later : Z) :
  let start := _onAmqpMessage ext cfg now lockedUntil in
  let s := run ext cfg before start in
  let final :=
    run ext cfg (before ++ RenewLockSettled (inl err) later :: after) start in
  renewing s = true ->
  exists tail,
    effects final = effects s ++ OnError (AsCaught err) :: tail
    /\ Forall (fun x => isRenewalCall x = false) tail.
Proof.
  intros start s final Hr.
  pose proof (inv_reached ext cfg now lockedUntil before) as I.
  fold start in I. fold s in I.
  unfold final. rewrite run_app.
  change (run ext cfg (RenewLockSettled (inl err) later :: after)
            (run ext cfg before start))
    with (run ext cfg after (renewLockSettled ext (inl err) later s)).
  unfold renewLockSettled. rewrite Hr.
  match goal with |- context [run ext cfg after ?x] => set (s1 := x) end.
  destruct (quiet_run ext cfg after s1) as (tail & E & F).
  { split; simpl; [by apply (inv_renewing _ _ I)|done]. }
  exists tail. rewrite E. simpl. by rewrite <- app_assoc.
Qed.

(** The theorem for a renewal that fails after the first timer fired. *)
Lemma failed_renewal_is_reported_and_ends_witness :
  exists tail,
    effects
      (run sampleExternals (constructed (mkReceiveOptions None None None))
         ([TimerDue 0 20000]
          ++ RenewLockSettled (inl (JsError "Error" "boom")) 21000
               :: [OnMessageSettled None])
         (_onAmqpMessage sampleExternals
            (constructed (mkReceiveOptions None None None)) 0 30000))
    = effects
        (run sampleExternals (constructed (mkReceiveOptions None None None))
           [TimerDue 0 20000]
           (_onAmqpMessage sampleExternals
              (constructed (mkReceiveOptions None None None)) 0 30000))
      ++ OnError (AsCaught (JsError "Error" "boom")) :: tail
    /\ Forall (fun x => isRenewalCall x = false) tail.
Proof.
  apply (failed_renewal_is_reported_and_ends sampleExternals
           (constructed (mkReceiveOptions None None None)) 0 30000
           [TimerDue 0 20000] [OnMessageSettled None]
           (JsError "Error" "boom") 21000).
  vm_compute. reflexivity.
Defined.

(** Property X10.  Timers and renewals alternate.  In every state of a run the number of timers
    set is the number of [renewLock] calls or one more; while a [renewLock] is
    outstanding the two numbers agree and no timer is pending; and at most one
    timer is pending at a time. *)
Theorem renewals_never_overlap (ext : Externals) (cfg : Config)
    (now lockedUntil : Z) (es : list Event) :
  let final := run ext cfg es (_onAmqpMessage ext cfg now lockedUntil) in
  let timersSet := length (filter isTimerSet (effects final)) in
  let renewals := length (filter isRenewLock (effects final)) in
  (renewals <= timersSet <= S renewals)%nat
  /\ (renewing final = true -> timersSet = renewals /\ pending final = ∅)
  /\ (forall h, h ∈ pending final -> pending final = {[h]}).
Proof.
  intros final timersSet renewals.
  pose proof (inv_reached ext cfg now lockedUntil es) as I. fold final in I.
  destruct (alternating_run ext cfg es _ (inv_start ext cfg now lockedUntil)
              (alternating_start ext cfg now lockedUntil)) as (K1 & K2 & K3).
  fold final in K1, K2, K3.
  split; [exact K3|]. split.
  - intros Hr. split; [by apply K1|by apply (inv_renewing _ _ I)].
  - intros h Hh. apply set_eq. intros x. rewrite elem_of_singleton. split.
    + intros Hx. pose proof (inv_pending_timer _ _ I _ Hx).
      pose proof (inv_pending_timer _ _ I _ Hh). congruence.
    + by intros ->.
Qed.

End HandlingRuns.

(* ===================================================================== *)
(** ** Further facts about [_init] and [detached] *)
(* ===================================================================== *)

Module LifecycleRuns.
Import Lifecycle LifecycleFacts LifecycleAux.

Section WithExternals.
Context (ext : Externals).

(** [_init] past [createReceiver], computed. *)
Lemma init_established this options tr w r :
  receivers w !! this = Some r -> idle w r ->
  _init ext this options (Established tr) w
  = (mkWorld (register this (receiverType r) (context w))
       (<[this := opened (nextLink w) r]> (receivers w))
       (<[nextLink w :=
            mkLink (opt_name (default (receiverOptions r) options)) true false]>
          (links w))
       (S (nextLink w)) (entropy w)
       (effects w
          ++ [InitCalled this options; NegotiateClaim this;
              CreateReceiver this (default (receiverOptions r) options);
              EnsureTokenRenewal this]),
     translate ext <$> tr).
Proof.
  intros H [Ho Hc]. unfold _init. simpl. rewrite H.
  assert (isOpen (emit [InitCalled this options] w) r = false) as -> by done.
  rewrite Hc. simpl.
  destruct tr as [e|]; simpl; rewrite ?lookup_insert_eq; simpl;
    unfold setReceiver; simpl;
    rewrite ?insert_insert_eq, <- ?app_assoc; simpl;
    destruct options; simpl; reflexivity.
Qed.

(** [_init] changes nothing of the receiver object but its link. *)
Lemma init_fields this options outcome w r :
  receivers w !! this = Some r ->
  exists r',
    receivers (fst (_init ext this options outcome w)) !! this = Some r'
    /\ setLink (_receiver r) r' = r
    /\ (_receiver r' = _receiver r
        \/ (idle w r /\ (exists tr, outcome = Established tr)
            /\ _receiver r' = Some (nextLink w))).
Proof.
  intros H. unfold _init. simpl. rewrite H.
  assert (isOpen (emit [InitCalled this options] w) r = isOpen w r) as -> by done.
  assert (setLink (_receiver r) r = r) as Hsame by (by destruct r).
  destruct (isOpen w r) eqn:Ho; simpl; [by exists r; rewrite H; auto|].
  destruct (isConnecting r) eqn:Hc; simpl; [by exists r; rewrite H; auto|].
  assert (setLink (_receiver r) (setConnecting false (setConnecting true r)) = r)
    as Hback.
  { destruct r. simpl in Hc. by subst. }
  destruct outcome as [e|e|[e|]]; simpl; rewrite ?lookup_insert_eq; simpl;
    rewrite ?lookup_insert_eq; eexists; (split; [reflexivity|]);
    (split; [by (destruct r; simpl in Hc; subst)|]); simpl; eauto 10.
  all: right; repeat split; eauto.
Qed.

(** The retry loop up to its first success. *)
Lemma retryLoop_succeeds this opts delay outcomes r k :
  forall remaining attempt lastError w,
    receivers w !! this = Some r -> idle w r -> (k < remaining)%nat ->
    (forall n, (attempt <= n < attempt + k)%nat ->
               exists e, refused (outcomes n) = Some e
                         /\ retryable (translate ext e) = true) ->
    outcomes (attempt + k)%nat = Established None ->
    exists w0 tail,
      retryLoop (fun n => _init ext this (Some opts) (outcomes n)) delay
        attempt remaining lastError w
      = (fst (_init ext this (Some opts) (Established None) w0), RetryOk)
      /\ receivers w0 !! this = Some r /\ idle w0 r
      /\ context w0 = context w
      /\ effects w0 = effects w ++ tail
      /\ length (filter isInitCalled tail) = k
      /\ Forall (establishing this opts delay) tail.
Proof.
  induction k as [|k IH]; intros remaining attempt lastError w Hr Hi Hk Hall Hok.
  - destruct remaining as [|m]; [lia|]. simpl.
    rewrite Nat.add_0_r in Hok. rewrite Hok.
    pose proof (init_established this (Some opts) None w r Hr Hi) as E.
    rewrite E. simpl. exists w, []. rewrite E, app_nil_r. simpl.
    destruct Hi. repeat split; auto.
  - destruct remaining as [|m]; [lia|]. simpl.
    destruct (Hall attempt) as (e & He & Hret); [lia|].
    destruct (init_refused ext this (Some opts) (outcomes attempt) w r e Hr Hi He)
      as (w1 & E & Hr1 & Hi1 & Hc1 & _).
    destruct (init_effects ext this (Some opts) (outcomes attempt) w r Hr)
      as (t1 & E1 & F1).
    destruct (establishing_init_tail this opts delay r t1 F1) as [G1 N1].
    rewrite E in E1 |- *. simpl in E1. rewrite Hret.
    destruct (IH m (S attempt) (Some (translate ext e))
                (emit [Delay delay] w1) Hr1 (idle_emit _ _ _ Hi1))
      as (w0 & tail & EL & Hr0 & Hi0 & Hc0 & Eff & C & F).
    { lia. }
    { intros n Hn. apply Hall. lia. }
    { by replace (S attempt + k)%nat with (attempt + S k)%nat by lia. }
    exists w0, ((InitCalled this (Some opts) :: t1) ++ Delay delay :: tail).
    split; [done|]. split; [done|]. split; [done|].
    split; [by rewrite Hc0|]. split; [|split].
    + rewrite Eff. simpl. rewrite E1. by rewrite <- !app_assoc.
    + rewrite filter_app, length_app, filter_cons_True by done.
      rewrite filter_cons_False by auto. simpl. rewrite N1, C. simpl. lia.
    + apply Forall_app. split.
      * constructor; [by left|done].
      * constructor; [|done]. unfold establishing. intuition.
Qed.

(** What the retry loop does to the entity context. *)
Lemma registrationKept_refl this ty c : registrationKept this ty c c.
Proof. unfold registrationKept. auto. Qed.

Lemma registrationKept_trans this ty c1 c2 c3 :
  registrationKept this ty c1 c2 -> registrationKept this ty c2 c3 ->
  registrationKept this ty c1 c3.
Proof.
  intros (A1 & A2 & A3 & A4) (B1 & B2 & B3 & B4).
  unfold registrationKept. repeat split; try congruence.
  destruct A4 as [A4|[A4 A5]], B4 as [B4|[B4 B5]]; try (left; congruence).
  - right. split; congruence.
  - right. split; congruence.
Qed.

Lemma init_registrationKept this options outcome w r :
  receivers w !! this = Some r ->
  registrationKept this (receiverType r) (context w)
    (context (fst (_init ext this options outcome w))).
Proof.
  intros H. rewrite (init_context ext this options outcome w r H).
  destruct (_ && _); [|apply registrationKept_refl].
  destruct outcome; try apply registrationKept_refl.
  destruct (register_slots this (receiverType r) (context w))
    as (S1 & S2 & S3 & S4).
  unfold registrationKept. repeat split; try done.
  rewrite S1. destruct (slot (receiverType r) (context w)); auto.
Qed.

Lemma retryLoop_registrationKept this options delay outcomes ty remaining :
  forall attempt lastError w r,
    receivers w !! this = Some r -> receiverType r = ty ->
    registrationKept this ty (context w)
      (context (fst (retryLoop
                       (fun n => _init ext this options (outcomes n))
                       delay attempt remaining lastError w))).
Proof.
  induction remaining as [|k IH]; intros attempt lastError w r Hr Hty; simpl.
  - apply registrationKept_refl.
  - pose proof (init_registrationKept this options (outcomes attempt) w r Hr)
      as K1. rewrite Hty in K1.
    destruct (init_fields this options (outcomes attempt) w r Hr)
      as (r1 & Hr1 & Hf & _).
    assert (receiverType r1 = ty) as Hty1.
    { rewrite <- Hty, <- Hf. by destruct r1. }
    destruct (_init ext this options (outcomes attempt) w) as [w1 res].
    simpl in K1, Hr1.
    destruct res as [err|]; [destruct (retryable err)|]; simpl; try done.
    eapply registrationKept_trans; [exact K1|].
    apply (IH (S attempt) (Some err) (emit [Delay delay] w1) r1); done.
Qed.

Lemma detached_registrationKept this err outcomes w r :
  receivers w !! this = Some r ->
  registrationKept this (receiverType r) (context w)
    (context (detached ext this err outcomes w)).
Proof.
  intros H.
  destruct (shouldReopen ext err (wasCloseInitiated w r)) eqn:Hs.
  - rewrite (detached_reopens ext this err outcomes w r H Hs).
    set (renamed := setName _ (clearTokenRenewal r)).
    match goal with
    | |- context [retry _ _ _ ?x] => set (w2 := x)
    end.
    unfold retry.
    pose proof (retryLoop_registrationKept this
                  (Some (receiverOptions renamed)) 15 outcomes
                  (receiverType r) (defaultConnectionRetryAttempts ext)
                  0%nat None
                  (emit [RetryCalled (defaultConnectionRetryAttempts ext) 15] w2)
                  renamed) as K.
    destruct (retryLoop _ _ _ _ _ _) as [w3 res]. simpl in K.
    assert (registrationKept this (receiverType r) (context w) (context w3))
      as K'.
    { apply K; [apply lookup_insert_eq|done]. }
    by destruct res.
  - rewrite (detached_stays_closed ext this err outcomes w r H Hs).
    apply registrationKept_refl.
Qed.

End WithExternals.

(** Property X11.  [_init] never leaves the receiver marked as connecting: on every path
    (guard not passed, claim refused, [createReceiver] refused, token renewal
    failed, success) [isConnecting] is afterwards what it was before, and nothing
    of the receiver object differs except [_receiver], which changes only when
    [createReceiver] succeeded for a receiver that was neither open nor
    connecting. *)
Theorem init_changes_only_the_link (ext : Externals) (this : nat)
    (options : option ReceiverOptions) (outcome : InitOutcome) (w : World)
    (r : MessageReceiver) :
  receivers w !! this = Some r ->
  exists r',
    receivers (fst (_init ext this options outcome w)) !! this = Some r'
    /\ isConnecting r' = isConnecting r
    /\ setLink (_receiver r) r' = r
    /\ (_receiver r' = _receiver r
        \/ (idle w r /\ (exists tr, outcome = Established tr)
            /\ _receiver r' = Some (nextLink w))).
Proof.
  intros H.
  destruct (init_fields ext this options outcome w r H) as (r' & Hr & Hf & Hl).
  exists r'. repeat split; try done. rewrite <- Hf. by destruct r'.
Qed.

(** The theorem for a receiver whose [createReceiver] is refused. *)
Lemma init_changes_only_the_link_witness :
  exists r',
    receivers
      (fst (_init sampleExternals 10 None
              (CreateReceiverFails (JsError "Error" "boom"))
              (mkWorld (mkClientEntityContext "orders" None None None)
                 {[10%nat := mkMessageReceiver "orders-s" "orders" streaming
                               peekLock 1 false None None]}
                 ∅ 0 0 []))) !! 10%nat = Some r'
    /\ isConnecting r' = false.
Proof.
  destruct (init_changes_only_the_link sampleExternals 10 None
              (CreateReceiverFails (JsError "Error" "boom"))
              (mkWorld (mkClientEntityContext "orders" None None None)
                 {[10%nat := mkMessageReceiver "orders-s" "orders" streaming
                               peekLock 1 false None None]}
                 ∅ 0 0 [])
              (mkMessageReceiver "orders-s" "orders" streaming peekLock 1
                 false None None))
    as (r' & Hr & Hc & _); [reflexivity|].
  exists r'. split; [exact Hr|exact Hc].
Defined.

(** While the link of a receiver is open, calls of [_init] only write
    their log lines. *)
Lemma initEach_open (ext : Externals) (this : nat)
    (later : list (option ReceiverOptions * InitOutcome)) :
  forall (w : World) (r : MessageReceiver),
    receivers w !! this = Some r -> isOpen w r = true ->
    initEach ext this later w
    = (emit (map (fun c => InitCalled this (fst c)) later) w,
       map (fun _ => None) later).
Proof.
  induction later as [|[options outcome] rest IH]; intros w r H Ho; simpl.
  - unfold emit. rewrite app_nil_r. by destruct w.
  - assert (_init ext this options outcome w
            = (emit [InitCalled this options] w, None)) as ->.
    { unfold _init. simpl. rewrite H.
      assert (isOpen (emit [InitCalled this options] w) r = true) as ->
        by exact Ho.
      done. }
    rewrite (IH (emit [InitCalled this options] w) r H Ho).
    unfold emit. simpl. by rewrite <- app_assoc.
Qed.

(** Property X12.  Once [_init] has obtained its link from [createReceiver],
    the receiver is open, and for as long as nothing closes that link
    further calls of [_init] do nothing: of any sequence of [_init] calls
    that follow one after another, whatever their options and whatever
    their attempts would meet, each only writes its log line and resolves,
    with no claim negotiation and no link created.  This holds also when
    [_ensureTokenRenewal] fails after the link was created and the first
    [_init] rejects with the translated error. *)
Theorem init_after_link_creation_does_nothing (ext : Externals) (this : nat)
    (options : option ReceiverOptions) (tokenRenewal : option Thrown)
    (w : World) (r : MessageReceiver)
    (later : list (option ReceiverOptions * InitOutcome)) :
  let first := _init ext this options (Established tokenRenewal) w in
  receivers w !! this = Some r -> idle w r ->
  snd first = translate ext <$> tokenRenewal
  /\ (exists r', receivers (fst first) !! this = Some r'
                 /\ isOpen (fst first) r' = true)
  /\ initEach ext this later (fst first)
     = (emit (map (fun c => InitCalled this (fst c)) later) (fst first),
        map (fun _ => None) later).
Proof.
  intros first H Hi.
  assert (receivers (fst first) !! this = Some (opened (nextLink w) r)
          /\ isOpen (fst first) (opened (nextLink w) r) = true) as [Hr Ho].
  { unfold first.
    rewrite (init_established ext this options tokenRenewal w r H Hi). simpl.
    split; [apply lookup_insert_eq|].
    unfold isOpen, linkReads. simpl. by rewrite lookup_insert_eq. }
  split; [|split].
  - unfold first.
    by rewrite (init_established ext this options tokenRenewal w r H Hi).
  - by exists (opened (nextLink w) r).
  - by apply (initEach_open ext this later (fst first) _ Hr Ho).
Qed.

(** The theorem for a receiver whose token renewal fails after the link was
    created, and two later calls of [_init]. *)
Lemma init_after_link_creation_does_nothing_witness :
  let w :=
    mkWorld (mkClientEntityContext "orders" None None None)
      {[10%nat := mkMessageReceiver "orders-s" "orders" streaming
                    peekLock 1 false None None]}
      ∅ 0 0 [] in
  let first :=
    _init sampleExternals 10 None
      (Established (Some (JsError "Error" "boom"))) w in
  let later :=
    [(None, Established None);
     (None, NegotiateClaimFails (JsError "Error" "refused"))] in
  snd first = Some (mkMessagingError "Error" false "boom")
  /\ initEach sampleExternals 10 later (fst first)
     = (emit [InitCalled 10 None; InitCalled 10 None] (fst first),
        [None; None]).
Proof.
  destruct (init_after_link_creation_does_nothing sampleExternals 10 None
              (Some (JsError "Error" "boom"))
              (mkWorld (mkClientEntityContext "orders" None None None)
                 {[10%nat := mkMessageReceiver "orders-s" "orders" streaming
                               peekLock 1 false None None]}
                 ∅ 0 0 [])
              (mkMessageReceiver "orders-s" "orders" streaming peekLock 1
                 false None None)
              [(None, Established None);
               (None, NegotiateClaimFails (JsError "Error" "refused"))])
    as (E & _ & N); [reflexivity|split; reflexivity|].
  split; [exact E|exact N].
Defined.

(** [detached] when an attempt succeeds: the calls made, and the receiver,
    the link and the entity context afterwards. *)
Lemma detached_first_success (ext : Externals) (this : nat)
    (err : option Thrown) (outcomes : nat -> InitOutcome) (w : World)
    (r : MessageReceiver) (k : nat) :
  let fresh := getUniqueName ext (entityPath (context w)) (entropy w) in
  let options := receiverOptions (setName fresh (clearTokenRenewal r)) in
  let times := defaultConnectionRetryAttempts ext in
  let w' := detached ext this err outcomes w in
  receivers w !! this = Some r ->
  shouldReopen ext err (wasCloseInitiated w r) = true ->
  isConnecting r = false ->
  (k < times)%nat ->
  (forall n, (n < k)%nat ->
             exists e, refused (outcomes n) = Some e
                       /\ retryable (translate ext e) = true) ->
  outcomes k = Established None ->
  (exists attempts,
     callsSince w w'
     = CloseLink this (_receiver r) :: RetryCalled times 15
         :: attempts
         ++ [InitCalled this (Some options); NegotiateClaim this;
             CreateReceiver this options; EnsureTokenRenewal this]
     /\ length (filter isInitCalled attempts) = k
     /\ Forall (establishing this options 15) attempts)
  /\ (exists r' h,
        receivers w' !! this = Some r'
        /\ name r' = fresh /\ isConnecting r' = false
        /\ _receiver r' = Some h
        /\ links w' !! h = Some (mkLink fresh true false))
  /\ context w' = register this (receiverType r) (context w).
Proof.
  intros fresh options times w' H Hs Hc Hk Hall Hok. unfold w'.
  rewrite (detached_reopens ext this err outcomes w r H Hs).
  set (renamed := setName _ (clearTokenRenewal r)).
  match goal with
  | |- context [retry _ _ _ ?x] => set (w2 := x)
  end.
  unfold retry. fold times.
  set (wR := emit [RetryCalled times 15] w2).
  assert (receivers wR !! this = Some renamed) as HR by apply lookup_insert_eq.
  assert (idle wR renamed) as HiR.
  { split; [|done]. apply (closeLink_not_open this w r H). }
  destruct (retryLoop_succeeds ext this (receiverOptions renamed) 15 outcomes
              renamed k times 0%nat None wR HR HiR Hk)
    as (w0 & tail & EL & Hr0 & Hi0 & Hc0 & Eff & C & F); [|done|].
  { intros n Hn. apply Hall. lia. }
  change (receiverOptions renamed) with options in *.
  rewrite EL.
  rewrite (init_established ext this (Some options) None w0 renamed Hr0 Hi0).
  simpl. split; [|split].
  - exists tail. split; [|done]. apply callsSince_app. simpl. rewrite Eff.
    unfold wR, w2. simpl. by rewrite <- !app_assoc.
  - exists (opened (nextLink w0) renamed), (nextLink w0).
    rewrite !lookup_insert_eq. done.
  - by rewrite Hc0.
Qed.

(** Property X13.  With the retry orchestrator as modelled for claim C8: when [detached] decides
    to reopen, the first k attempts are refused with retryable errors and
    attempt k succeeds (k below the configured number of attempts), then
    [_init] is called k+1 times and no more, the last attempt runs from the
    claim negotiation to the token renewal, no failure is logged, and afterwards
    the receiver bears the generated name, is not connecting, and holds an open
    link of that name; the entity context is as [_init]'s registration leaves
    it. *)
Theorem detached_reconnects_at_first_success (ext : Externals) (this : nat)
    (err : option Thrown) (outcomes : nat -> InitOutcome) (w : World)
    (r : MessageReceiver) (k : nat) :
  let fresh := getUniqueName ext (entityPath (context w)) (entropy w) in
  let options := receiverOptions (setName fresh (clearTokenRenewal r)) in
  let times := defaultConnectionRetryAttempts ext in
  let w' := detached ext this err outcomes w in
  receivers w !! this = Some r ->
  shouldReopen ext err (wasCloseInitiated w r) = true ->
  isConnecting r = false ->
  (k < times)%nat ->
  (forall n, (n < k)%nat ->
             exists e, refused (outcomes n) = Some e
                       /\ retryable (translate ext e) = true) ->
  outcomes k = Established None ->
  (exists attempts,
     callsSince w w'
     = CloseLink this (_receiver r) :: RetryCalled times 15
         :: attempts
         ++ [InitCalled this (Some options); NegotiateClaim this;
             CreateReceiver this options; EnsureTokenRenewal this]
     /\ length (filter isInitCalled attempts) = k
     /\ Forall (establishing this options 15) attempts)
  /\ (exists r' h,
        receivers w' !! this = Some r'
        /\ name r' = fresh /\ isConnecting r' = false
        /\ _receiver r' = Some h
        /\ links w' !! h = Some (mkLink fresh true false))
  /\ context w' = register this (receiverType r) (context w).
Proof.
  intros fresh options times w' H Hs Hc Hk Hall Hok.
  by apply detached_first_success.
Qed.

(** The theorem for a receiver whose first attempt is refused and whose second succeeds. *)
Lemma detached_reconnects_at_first_success_witness :
  let w :=
    mkWorld (mkClientEntityContext "orders" None (Some 10%nat) None)
      {[10%nat := mkMessageReceiver "orders-s" "orders" streaming
                    peekLock 1 false (Some 0%nat) None]}
      {[0%nat := mkLink "orders-s" true false]} 1 0 [] in
  let outcomes :=
    fun n : nat =>
      match n with
      | O => CreateReceiverFails
               (AmqpFault
                  (mkAmqpError (Some "amqp:connection:forced"%string) None))
      | _ => Established None
      end in
  exists r',
    receivers (detached sampleExternals 10 None outcomes w) !! 10%nat = Some r'
    /\ name r' = getUniqueName sampleExternals "orders" 0
    /\ isConnecting r' = false.
Proof.
  destruct (detached_reconnects_at_first_success sampleExternals 10 None
              (fun n : nat =>
                 match n with
                 | O => CreateReceiverFails
                          (AmqpFault
                             (mkAmqpError
                                (Some "amqp:connection:forced"%string) None))
                 | _ => Established None
                 end)
              (mkWorld (mkClientEntityContext "orders" None (Some 10%nat) None)
                 {[10%nat := mkMessageReceiver "orders-s" "orders" streaming
                               peekLock 1 false (Some 0%nat) None]}
                 {[0%nat := mkLink "orders-s" true false]} 1 0 [])
              (mkMessageReceiver "orders-s" "orders" streaming peekLock 1
                 false (Some 0%nat) None) 1%nat)
    as (_ & (r' & h & Hr & Hn & Hc & _) & _);
    [reflexivity|reflexivity|reflexivity|simpl; lia| |reflexivity|].
  - intros n Hn. assert (n = 0%nat) as -> by lia.
    eexists. split; reflexivity.
  - exists r'. split; [exact Hr|split; [exact Hn|exact Hc]].
Defined.

(** Property X14.  [detached] never de-registers: whatever the error and whatever the
    establishment attempts meet, the sender, the entity path and the slot of the
    other receiver role are unchanged, an occupied slot of the receiver's own
    role keeps its occupant, and an empty one stays empty or is filled with this
    receiver. *)
Theorem detached_keeps_registration (ext : Externals) (this : nat)
    (err : option Thrown) (outcomes : nat -> InitOutcome) (w : World)
    (r : MessageReceiver) :
  let c := context w in
  let c' := context (detached ext this err outcomes w) in
  receivers w !! this = Some r ->
  slot (otherRole (receiverType r)) c' = slot (otherRole (receiverType r)) c
  /\ sender c' = sender c
  /\ entityPath c' = entityPath c
  /\ (forall x, slot (receiverType r) c = Some x ->
                slot (receiverType r) c' = Some x)
  /\ (slot (receiverType r) c = None ->
      slot (receiverType r) c' = None \/ slot (receiverType r) c' = Some this).
Proof.
  intros c c' H.
  destruct (detached_registrationKept ext this err outcomes w r H)
    as (K1 & K2 & K3 & K4).
  fold c c' in K1, K2, K3, K4. repeat split; try done.
  - intros x Hx. destruct K4 as [K4|[K4 _]]; congruence.
  - intros Hn. destruct K4 as [K4|[_ K4]]; [left; congruence|by right].
Qed.

(** The theorem for a streaming receiver beside a registered batching receiver. *)
Lemma detached_keeps_registration_witness :
  let w :=
    mkWorld (mkClientEntityContext "orders" None (Some 10%nat) (Some 11%nat))
      {[10%nat := mkMessageReceiver "orders-s" "orders" streaming
                    peekLock 1 false (Some 0%nat) None]}
      {[0%nat := mkLink "orders-s" true false]} 1 0 [] in
  batchingReceiver
    (context (detached sampleExternals 10 None (fun _ => Established None) w))
  = Some 11%nat.
Proof.
  destruct (detached_keeps_registration sampleExternals 10 None
              (fun _ => Established None)
              (mkWorld
                 (mkClientEntityContext "orders" None (Some 10%nat)
                    (Some 11%nat))
                 {[10%nat := mkMessageReceiver "orders-s" "orders" streaming
                               peekLock 1 false (Some 0%nat) None]}
                 {[0%nat := mkLink "orders-s" true false]} 1 0 [])
              (mkMessageReceiver "orders-s" "orders" streaming peekLock 1
                 false (Some 0%nat) None))
    as (Hother & _); [reflexivity|].
  exact Hother.
Defined.

End LifecycleRuns.

(* ===================================================================== *)
(** ** Facts about the close and error handlers *)
(* ===================================================================== *)

Module HandlersFacts.
Import Lifecycle LifecycleFacts Handlers HandlersAux.

Lemma callsSince_same w : callsSince w w = [].
Proof. unfold callsSince. by rewrite drop_all. Qed.

Lemma retried_nil : ~ retried [].
Proof. intros (t & d & Hin). by apply elem_of_nil in Hin. Qed.

Section WithExternals.
Context (ext : Externals).

(** The calls of [detached]: the link is closed, then the retry starts or
    nothing else happens. *)
Lemma detached_effects this err outcomes w r :
  receivers w !! this = Some r ->
  exists tail,
    effects (detached ext this err outcomes w)
    = effects w ++ CloseLink this (_receiver r) :: tail
    /\ if shouldReopen ext err (wasCloseInitiated w r)
       then exists rest,
              tail = RetryCalled (defaultConnectionRetryAttempts ext) 15
                       :: rest
       else tail = [].
Proof.
  intros H. destruct (shouldReopen ext err (wasCloseInitiated w r)) eqn:Hs.
  - rewrite (detached_reopens ext this err outcomes w r H Hs).
    set (renamed := setName _ (clearTokenRenewal r)).
    match goal with
    | |- context [retry _ _ _ ?x] => set (w2 := x)
    end.
    unfold retry.
    set (wR := emit [RetryCalled (defaultConnectionRetryAttempts ext) 15] w2).
    destruct (retryLoop_effects ext this (receiverOptions renamed) 15 outcomes
                (defaultConnectionRetryAttempts ext) 0%nat None wR)
      as (tail & E & _).
    { exists renamed. apply lookup_insert_eq. }
    destruct (retryLoop _ _ _ _ _ wR) as [w3 res].
    change (effects w3 = effects wR ++ tail) in E.
    assert (effects wR
            = effects w
                ++ [CloseLink this (_receiver r);
                    RetryCalled (defaultConnectionRetryAttempts ext) 15])
      as EwR.
    { unfold wR, w2. simpl. by rewrite <- app_assoc. }
    destruct res as [|last].
    + exists (RetryCalled (defaultConnectionRetryAttempts ext) 15 :: tail).
      split; [|eauto]. rewrite E, EwR, <- app_assoc. done.
    + exists (RetryCalled (defaultConnectionRetryAttempts ext) 15
                :: tail ++ [DetachedFailed this last]).
      split; [|eauto].
      change (effects (emit [DetachedFailed this last] w3))
        with (effects w3 ++ [DetachedFailed this last]).
      rewrite E, EwR, <- !app_assoc. done.
  - rewrite (detached_stays_closed ext this err outcomes w r H Hs).
    exists []. split; [|done]. apply closeLink_effects.
Qed.

(** A handler that goes on to [detached]. *)
Lemma handler_detached_calls this err outcomes w r :
  receivers w !! this = Some r ->
  exists tail,
    callsSince w
      (detached ext this err outcomes (emit [ReceiverDetached this err] w))
    = ReceiverDetached this err :: CloseLink this (_receiver r) :: tail
    /\ if shouldReopen ext err (wasCloseInitiated w r)
       then exists rest,
              tail = RetryCalled (defaultConnectionRetryAttempts ext) 15
                       :: rest
       else tail = [].
Proof.
  intros H.
  destruct (detached_effects this err outcomes
              (emit [ReceiverDetached this err] w) r H) as (tail & E & T).
  exists tail. split; [|exact T].
  apply callsSince_app. rewrite E. simpl. by rewrite <- app_assoc.
Qed.

Lemma retried_handler_calls (this : nat) (err : option Thrown)
    (link : option nat) (tail : list Effect) (b : bool) :
  (if b
   then exists rest,
          tail = RetryCalled (defaultConnectionRetryAttempts ext) 15 :: rest
   else tail = []) ->
  retried (ReceiverDetached this err :: CloseLink this link :: tail)
  <-> b = true.
Proof.
  intros T. destruct b.
  - destruct T as [rest ->]. split; [done|]. intros _.
    exists (defaultConnectionRetryAttempts ext), 15.
    apply list_elem_of_further, list_elem_of_further, list_elem_of_here.
  - subst tail. split; [|done]. intros (t & d & Hin).
    apply elem_of_cons in Hin as [Hin|Hin]; [done|].
    apply elem_of_cons in Hin as [Hin|Hin]; [done|].
    by apply elem_of_nil in Hin.
Qed.

(** A link that the handler finds not closed was not closed by [close()]. *)
Lemma live_not_closeInitiated w r c :
  live w r c -> wasCloseInitiated w r = false.
Proof.
  intros (h & Eh & Hc). unfold wasCloseInitiated, linkReads.
  unfold eventReceiver in Eh. destruct (_receiver r) as [h'|]; [|done].
  inversion Eh; subst h'. exact Hc.
Qed.

(** The cases of [_onAmqpClose]. *)
Lemma onAmqpClose_calls this context outcomes w r :
  receivers w !! this = Some r ->
  let calls := callsSince w (_onAmqpClose ext this context outcomes w) in
  (live w r context /\ isConnecting r = false
   /\ exists tail,
        calls = ReceiverDetached this (receiverError context)
                  :: CloseLink this (_receiver r) :: tail
        /\ (retried calls <-> tolerable ext (receiverError context)))
  \/ (~ (live w r context /\ isConnecting r = false) /\ calls = []).
Proof.
  intros H calls. unfold calls, _onAmqpClose. rewrite H.
  destruct (eventReceiver r context) as [h|] eqn:Eh.
  - destruct (handleReads link_closed w h) eqn:Ecl; simpl.
    + right. split; [|apply callsSince_same].
      intros [(h' & Eh' & Hc) _]. congruence.
    + destruct (isConnecting r) eqn:Ec; simpl.
      * right. split; [|apply callsSince_same]. intros [_ ?]. done.
      * left. assert (live w r context) as L by (exists h; done).
        split; [done|]. split; [done|].
        destruct (handler_detached_calls this (receiverError context)
                    outcomes w r H) as (tail & E & T).
        exists tail. split; [done|]. rewrite E.
        rewrite (retried_handler_calls _ _ _ _ _ T).
        rewrite (live_not_closeInitiated w r context L).
        rewrite shouldReopen_iff. unfold tolerable. tauto.
  - right. split; [|apply callsSince_same].
    intros [(h' & Eh' & _) _]. congruence.
Qed.


End WithExternals.

(** Property X15.  [_onAmqpClose] acts if and only if it has a link that is not closed and the
    receiver is not connecting; it then calls [detached] with the error of the
    event, which closes the link.  The retry orchestrator is called if and only
    if, in addition, the error is absent or retryable: from this handler the
    close is never taken for one that [close()] initiated. *)
Theorem onAmqpClose_reconnects_iff (ext : Externals) (this : nat)
    (context : EventContext) (outcomes : nat -> InitOutcome) (w : World)
    (r : MessageReceiver) :
  let calls := callsSince w (_onAmqpClose ext this context outcomes w) in
  receivers w !! this = Some r ->
  (calls <> [] <-> live w r context /\ isConnecting r = false)
  /\ (retried calls
      <-> live w r context /\ isConnecting r = false
          /\ tolerable ext (receiverError context))
  /\ (live w r context -> isConnecting r = false ->
      exists tail,
        calls = ReceiverDetached this (receiverError context)
                  :: CloseLink this (_receiver r) :: tail).
Proof.
  intros calls H.
  destruct (onAmqpClose_calls ext this context outcomes w r H)
    as [(L & Hc & tail & E & R)|[N E]]; fold calls in E |- *.
  - split; [|split].
    + split; [done|]. intros _. by rewrite E.
    + fold calls in R. rewrite R. tauto.
    + intros _ _. by exists tail.
  - rewrite E. split; [|split].
    + split; [done|]. intros [? ?]. destruct N. done.
    + split; [intros X; by apply retried_nil in X|].
      intros (? & ? & _). destruct N. done.
    + intros L Hc. destruct N. done.
Qed.

(** The theorem for a close event without an error on an open link. *)
Lemma onAmqpClose_reconnects_iff_witness :
  let w :=
    mkWorld (mkClientEntityContext "orders" None (Some 10%nat) None)
      {[10%nat := mkMessageReceiver "orders-s" "orders" streaming
                    peekLock 1 false (Some 0%nat) None]}
      {[0%nat := mkLink "orders-s" true false]} 1 0 [] in
  let context := mkEventContext (Some (0%nat, None)) None in
  retried
    (callsSince w
       (_onAmqpClose sampleExternals 10 context (fun _ => Established None) w)).
Proof.
  destruct (onAmqpClose_reconnects_iff sampleExternals 10
              (mkEventContext (Some (0%nat, None)) None)
              (fun _ => Established None)
              (mkWorld (mkClientEntityContext "orders" None (Some 10%nat) None)
                 {[10%nat := mkMessageReceiver "orders-s" "orders" streaming
                               peekLock 1 false (Some 0%nat) None]}
                 {[0%nat := mkLink "orders-s" true false]} 1 0 [])
              (mkMessageReceiver "orders-s" "orders" streaming peekLock 1
                 false (Some 0%nat) None))
    as (_ & (_ & Hback) & _); [reflexivity|].
  apply Hback. split; [|split; [reflexivity|exact I]].
  exists 0%nat. split; reflexivity.
Defined.

(** Property X16.  For a receiver event that carries an error, [_onAmqpError] calling the
    application's error callback and [_onAmqpClose] starting a reconnection
    exclude each other; and when the link is not closed and the receiver is not
    connecting exactly one of them happens: the callback gets the translated
    error when it is not retryable, the reconnection starts when it is. *)
Theorem receiver_error_is_reported_or_retried (ext : Externals) (this : nat)
    (context : EventContext) (outcomes : nat -> InitOutcome) (w : World)
    (r : MessageReceiver) (e : Thrown) :
  let reported := _onAmqpError ext this context w in
  let calls := callsSince w (_onAmqpClose ext this context outcomes w) in
  receivers w !! this = Some r ->
  receiverError context = Some e ->
  (reported = None \/ ~ retried calls)
  /\ (live w r context -> isConnecting r = false ->
      (reported = Some (translate ext e)
       /\ retryable (translate ext e) = false /\ ~ retried calls)
      \/ (reported = None
          /\ retryable (translate ext e) = true /\ retried calls)).
Proof.
  intros reported calls H He.
  assert (reported
          = if negb (retryable (translate ext e))
            then match eventReceiver r context with
                 | Some h => if negb (handleReads link_closed w h)
                             then Some (translate ext e) else None
                 | None => None
                 end
            else None) as Hrep.
  { unfold reported, _onAmqpError. by rewrite H, He. }
  destruct (onAmqpClose_calls ext this context outcomes w r H)
    as [(L & Hc & tail & E & R)|[N E]]; fold calls in E |- *.
  - fold calls in R. rewrite He in R. simpl in R.
    destruct (retryable (translate ext e)) eqn:Hret; simpl in Hrep.
    + split; [by left|]. intros _ _. right. split; [done|]. split; [done|].
      by apply R.
    + assert (~ retried calls) as NR by (rewrite R; done).
      split; [by right|]. intros _ _. left.
      destruct L as (h & Eh & Hcl). rewrite Eh, Hcl in Hrep. done.
  - rewrite E. split; [right; apply retried_nil|].
    intros L Hc. destruct N. done.
Qed.

(** The theorem for a close event with an error that is not retryable. *)
Lemma receiver_error_is_reported_or_retried_witness :
  let w :=
    mkWorld (mkClientEntityContext "orders" None (Some 10%nat) None)
      {[10%nat := mkMessageReceiver "orders-s" "orders" streaming
                    peekLock 1 false (Some 0%nat) None]}
      {[0%nat := mkLink "orders-s" true false]} 1 0 [] in
  let context :=
    mkEventContext (Some (0%nat, Some (JsError "Error" "boom"))) None in
  _onAmqpError sampleExternals 10 context w = None
  \/ ~ retried
         (callsSince w
            (_onAmqpClose sampleExternals 10 context
               (fun _ => Established None) w)).
Proof.
  destruct (receiver_error_is_reported_or_retried sampleExternals 10
              (mkEventContext (Some (0%nat, Some (JsError "Error" "boom")))
                 None)
              (fun _ => Established None)
              (mkWorld (mkClientEntityContext "orders" None (Some 10%nat) None)
                 {[10%nat := mkMessageReceiver "orders-s" "orders" streaming
                               peekLock 1 false (Some 0%nat) None]}
                 {[0%nat := mkLink "orders-s" true false]} 1 0 [])
              (mkMessageReceiver "orders-s" "orders" streaming peekLock 1
                 false (Some 0%nat) None)
              (JsError "Error" "boom"))
    as (Hnever & _); [reflexivity|reflexivity|].
  exact Hnever.
Defined.



End HandlersFacts.

(* ===================================================================== *)
(** ** Facts about the entity context *)
(* ===================================================================== *)

Module EntityContextFacts.
Import Lifecycle LifecycleFacts LifecycleAux LifecycleRuns EntityContext.

(** The loop of [getManagementClient] stops at the first client of the
    name. *)
Lemma getManagementClient_first (pre post : list (string * Client))
    (k : string) (c : Client) (n : string) :
  Forall (fun kc => client_name (snd kc) <> n) pre ->
  client_name c = n ->
  getManagementClient (pre ++ (k, c) :: post) n = client_managementClient c.
Proof.
  intros F Hc. induction F as [|[k' c'] pre Hne _ IH]; simpl.
  - by rewrite Hc, String.eqb_refl.
  - simpl in Hne. apply String.eqb_neq in Hne. by rewrite Hne.
Qed.

Lemma getManagementClient_none (cs : list (string * Client)) (n : string) :
  Forall (fun kc => client_name (snd kc) <> n) cs ->
  getManagementClient cs n = None.
Proof.
  induction 1 as [|[k' c'] cs Hne _ IH]; simpl; [done|].
  simpl in Hne. apply String.eqb_neq in Hne. by rewrite Hne.
Qed.

(** What [getReceiver] returns is held by a slot and bears the name. *)
Lemma getReceiver_sound n w x :
  getReceiver n w = Some x ->
  exists r, receivers w !! x = Some r /\ name r = n
            /\ (streamingReceiver (context w) = Some x
                \/ batchingReceiver (context w) = Some x).
Proof.
  unfold getReceiver, named. intros H.
  destruct (streamingReceiver (context w)) as [s|] eqn:Es.
  - destruct (receivers w !! s) as [rs|] eqn:Ers.
    + destruct (String.eqb_spec (name rs) n) as [Hn|Hn].
      * inversion H; subst. eauto.
      * destruct (batchingReceiver (context w)) as [b|] eqn:Eb; [|done].
        destruct (receivers w !! b) as [rb|] eqn:Erb; [|done].
        destruct (String.eqb_spec (name rb) n); [|done].
        inversion H; subst. eauto.
    + destruct (batchingReceiver (context w)) as [b|] eqn:Eb; [|done].
      destruct (receivers w !! b) as [rb|] eqn:Erb; [|done].
      destruct (String.eqb_spec (name rb) n); [|done].
      inversion H; subst. eauto.
  - destruct (batchingReceiver (context w)) as [b|] eqn:Eb; [|done].
    destruct (receivers w !! b) as [rb|] eqn:Erb; [|done].
    destruct (String.eqb_spec (name rb) n); [|done].
    inversion H; subst. eauto.
Qed.

(** Property X18.  [ClientEntityContext.create] throws the entity-path error exactly when
    [entityPath] is not a non-empty string (whatever the context is), the
    context error exactly when the path is a non-empty string and [context] is
    not an object ([null] included), and otherwise returns an entity context for
    that path with no sender and no receiver. *)
Theorem create_validates_its_arguments (entityPath : JsValue unit)
    (context : JsValue ConnectionContext)
    (options : option ClientEntityContextOptions) :
  match create entityPath context options with
  | Threw message =>
      (message
       = "'entityPath' is a required parameter and must be of type 'string'."%string
       /\ forall s, entityPath = JsString s -> s = EmptyString)
      \/ (message
          = "'context' is a required parameter and must be of type 'object'."%string
          /\ (exists s, entityPath = JsString s /\ s <> EmptyString)
          /\ forall c, context <> JsObject c)
  | Made c _ =>
      entityPath = JsString (Lifecycle.entityPath c)
      /\ Lifecycle.entityPath c <> EmptyString
      /\ (exists connection, context = JsObject connection)
      /\ sender c = None /\ streamingReceiver c = None
      /\ batchingReceiver c = None
  end.
Proof.
  unfold create.
  destruct entityPath as [| |b|z|s|o|]; simpl; rewrite ?orb_true_r;
    try (left; split; [reflexivity|intros s' Hs; discriminate]).
  destruct (String.eqb_spec s EmptyString) as [->|Hs]; simpl.
  { left. split; [reflexivity|]. intros s' Hs'. by inversion Hs'. }
  destruct context as [| |b|z|s'|conn|]; simpl; rewrite ?orb_true_r;
    try (right; split; [reflexivity|];
         split; [by exists s|intros c Hc; discriminate]).
  destruct (getManagementClient (clients conn) s); simpl; eauto 10.
Qed.

(** Property X19.  [create] takes the management client from the first client of the connection
    whose name is the entity path, whatever clients follow and whatever options
    were given; when that first client has no management client a new one is
    created, even if a later client of the same name has one. *)
Theorem create_shares_first_management_client (path : string)
    (connection : ConnectionContext)
    (options : option ClientEntityContextOptions)
    (pre post : list (string * Client)) (k : string) (c : Client) :
  path <> EmptyString ->
  clients connection = pre ++ (k, c) :: post ->
  Forall (fun kc => client_name (snd kc) <> path) pre ->
  client_name c = path ->
  match client_managementClient c with
  | Some m =>
      create (JsString path) (JsObject connection) options
      = Made (mkClientEntityContext path None None None) (Shared m)
  | None =>
      exists created,
        create (JsString path) (JsObject connection) options
        = Made (mkClientEntityContext path None None None) (Created created)
  end.
Proof.
  intros Hp Hcs F Hc. unfold create. simpl.
  apply String.eqb_neq in Hp. rewrite Hp. simpl.
  rewrite Hcs, (getManagementClient_first pre post k c path F Hc).
  destruct (client_managementClient c); eauto.
Qed.

(** The theorem for a connection with two clients of the path. *)
Lemma create_shares_first_management_client_witness :
  create (JsString "orders")
    (JsObject
       (mkConnectionContext
          [("a"%string, mkClient "invoices" (Some 1%nat));
           ("b"%string, mkClient "orders" (Some 2%nat));
           ("c"%string, mkClient "orders" (Some 3%nat))]))
    None
  = Made (mkClientEntityContext "orders" None None None) (Shared 2).
Proof.
  apply (create_shares_first_management_client "orders"
           (mkConnectionContext
              [("a"%string, mkClient "invoices" (Some 1%nat));
               ("b"%string, mkClient "orders" (Some 2%nat));
               ("c"%string, mkClient "orders" (Some 3%nat))])
           None
           [("a"%string, mkClient "invoices" (Some 1%nat))]
           [("c"%string, mkClient "orders" (Some 3%nat))]
           "b"%string (mkClient "orders" (Some 2%nat))).
  - discriminate.
  - reflexivity.
  - repeat constructor. simpl. discriminate.
  - reflexivity.
Defined.

(** Property X20.  When no client of the connection bears the entity path as its name, [create]
    makes a new management client with the audience of the options and with
    their address, or [<entityPath>/$management] when the address is absent or
    empty. *)
Theorem create_makes_management_client (path : string)
    (connection : ConnectionContext)
    (options : option ClientEntityContextOptions) :
  path <> EmptyString ->
  Forall (fun kc => client_name (snd kc) <> path) (clients connection) ->
  exists created,
    create (JsString path) (JsObject connection) options
    = Made (mkClientEntityContext path None None None) (Created created)
    /\ mc_audience created = (options ≫= managementClientAudience)
    /\ mc_address created
       = match options ≫= managementClientAddress with
         | Some a => if String.eqb a EmptyString
                     then String.append path "/$management"
                     else a
         | None => String.append path "/$management"
         end.
Proof.
  intros Hp F. unfold create. simpl.
  apply String.eqb_neq in Hp. rewrite Hp. simpl.
  rewrite (getManagementClient_none _ _ F).
  eexists. split; [reflexivity|]. simpl.
  destruct options as [[[a|] au]|]; simpl; try done.
  by destruct (String.eqb a EmptyString).
Qed.

(** The theorem for options with an empty address. *)
Lemma create_makes_management_client_witness :
  exists created,
    create (JsString "orders")
      (JsObject (mkConnectionContext
                   [("a"%string, mkClient "invoices" (Some 1%nat))]))
      (Some (mkClientEntityContextOptions (Some ""%string) None))
    = Made (mkClientEntityContext "orders" None None None) (Created created)
    /\ mc_address created = "orders/$management"%string.
Proof.
  destruct (create_makes_management_client "orders"
              (mkConnectionContext
                 [("a"%string, mkClient "invoices" (Some 1%nat))])
              (Some (mkClientEntityContextOptions (Some ""%string) None)))
    as (created & E & _ & A).
  - discriminate.
  - repeat constructor. simpl. discriminate.
  - exists created. split; [exact E|exact A].
Defined.

Section WithExternals.
Context (ext : Externals).

(** Lookups by name after [_init] has created the link, and after
    [close]. *)
Lemma getReceiver_registration this options tr w r :
  let w1 := fst (_init ext this options (Established tr) w) in
  receivers w !! this = Some r -> idle w r ->
  slot (receiverType r) (context w) = None ->
  slot (otherRole (receiverType r)) (context w) <> Some this ->
  named (name r) w (slot (otherRole (receiverType r)) (context w)) = false ->
  getReceiver (name r) w1 = Some this
  /\ forall n, getReceiver n (close this w1) = getReceiver n w.
Proof.
  intros w1 H Hi Hs Ho Hn. unfold w1.
  rewrite (init_established ext this options tr w r H Hi). simpl.
  split.
  - unfold getReceiver, named. simpl.
    destruct (receiverType r) eqn:Ety; simpl in *; rewrite Hs; simpl.
    + unfold named in Hn.
      destruct (streamingReceiver (context w)) as [s|] eqn:Es.
      * rewrite lookup_insert_ne by congruence. rewrite Hn.
        by rewrite lookup_insert_eq, String.eqb_refl.
      * by rewrite lookup_insert_eq, String.eqb_refl.
    + by rewrite lookup_insert_eq, String.eqb_refl.
  - intros n. unfold close. simpl. rewrite lookup_insert_eq. simpl.
    unfold _deleteFromCache. simpl. rewrite lookup_insert_eq. simpl.
    unfold getReceiver, named, _closeLink. simpl.
    rewrite lookup_insert_eq, !insert_insert_eq.
    destruct (receiverType r) eqn:Ety; simpl in *; rewrite Hs; simpl.
    + destruct (streamingReceiver (context w)) as [s|] eqn:Es; [|done].
      by rewrite lookup_insert_ne by congruence.
    + destruct (batchingReceiver (context w)) as [b|] eqn:Eb; [|done].
      by rewrite lookup_insert_ne by congruence.
Qed.

End WithExternals.

(** Property X21.  Lookups by name follow the registration.  After [_init] has created the link
    of a receiver whose role slot was empty, [getReceiver] finds it under its
    name (no receiver of the other role bearing that name); after [close()] of
    that receiver every lookup answers as before the [_init]. *)
Theorem getReceiver_follows_registration (ext : Externals) (this : nat)
    (options : option ReceiverOptions) (tokenRenewal : option Thrown)
    (w : World) (r : MessageReceiver) :
  let w1 := fst (_init ext this options (Established tokenRenewal) w) in
  receivers w !! this = Some r -> idle w r ->
  slot (receiverType r) (context w) = None ->
  slot (otherRole (receiverType r)) (context w) <> Some this ->
  named (name r) w (slot (otherRole (receiverType r)) (context w)) = false ->
  getReceiver (name r) w1 = Some this
  /\ forall n, getReceiver n (close this w1) = getReceiver n w.
Proof. intros w1. by apply getReceiver_registration. Qed.

(** The theorem for a batching receiver beside a registered streaming receiver. *)
Lemma getReceiver_follows_registration_witness :
  let w :=
    mkWorld (mkClientEntityContext "orders" None (Some 11%nat) None)
      {[10%nat := mkMessageReceiver "orders-b" "orders" batching
                    peekLock 1 false None None;
        11%nat := mkMessageReceiver "orders-s" "orders" streaming
                    peekLock 1 false None None]}
      ∅ 0 0 [] in
  getReceiver "orders-b"
    (fst (_init sampleExternals 10 None (Established None) w))
  = Some 10%nat.
Proof.
  destruct (getReceiver_follows_registration sampleExternals 10 None None
              (mkWorld (mkClientEntityContext "orders" None (Some 11%nat) None)
                 {[10%nat := mkMessageReceiver "orders-b" "orders" batching
                               peekLock 1 false None None;
                   11%nat := mkMessageReceiver "orders-s" "orders" streaming
                               peekLock 1 false None None]}
                 ∅ 0 0 [])
              (mkMessageReceiver "orders-b" "orders" batching peekLock 1
                 false None None))
    as (Hfound & _).
  - vm_compute. reflexivity.
  - split; reflexivity.
  - reflexivity.
  - simpl. discriminate.
  - vm_compute. reflexivity.
  - exact Hfound.
Defined.

(** Property X22.  With the retry orchestrator as modelled for claim C8: after [detached] has
    reconnected a registered receiver under a generated name that differs from
    the old one, the receiver still occupies its slot and bears the new name,
    [getReceiver] no longer finds it under the old name, and a streaming
    receiver is found under the new one. *)
Theorem reconnected_receiver_has_new_name (ext : Externals) (this : nat)
    (err : option Thrown) (outcomes : nat -> InitOutcome) (w : World)
    (r : MessageReceiver) (k : nat) :
  let fresh := getUniqueName ext (entityPath (context w)) (entropy w) in
  let w' := detached ext this err outcomes w in
  receivers w !! this = Some r ->
  slot (receiverType r) (context w) = Some this ->
  shouldReopen ext err (wasCloseInitiated w r) = true ->
  isConnecting r = false ->
  (k < defaultConnectionRetryAttempts ext)%nat ->
  (forall n, (n < k)%nat ->
             exists e, refused (outcomes n) = Some e
                       /\ retryable (translate ext e) = true) ->
  outcomes k = Established None ->
  fresh <> name r ->
  slot (receiverType r) (context w') = Some this
  /\ named fresh w' (Some this) = true
  /\ getReceiver (name r) w' <> Some this
  /\ (receiverType r = streaming -> getReceiver fresh w' = Some this).
Proof.
  intros fresh w' H Hs Hre Hc Hk Hall Hok Hfresh.
  destruct (detached_first_success ext this err outcomes w r k
              H Hre Hc Hk Hall Hok)
    as (_ & (r' & h & Hr' & Hn' & _) & Hctx).
  fold w' in Hr', Hctx. fold fresh in Hn'.
  assert (slot (receiverType r) (context w') = Some this) as Hslot.
  { rewrite Hctx.
    destruct (register_slots this (receiverType r) (context w)) as (S1 & _).
    by rewrite S1, Hs. }
  assert (named fresh w' (Some this) = true) as Hnamed.
  { unfold named. rewrite Hr', Hn'. apply String.eqb_refl. }
  split; [done|]. split; [done|]. split.
  - intros Hg. destruct (getReceiver_sound _ _ _ Hg) as (r0 & Hr0 & Hn0 & _).
    congruence.
  - intros Hty. rewrite Hty in Hslot. simpl in Hslot.
    unfold getReceiver. by rewrite Hslot, Hnamed.
Qed.

(** The theorem for a streaming receiver that reconnects at the first attempt. *)
Lemma reconnected_receiver_has_new_name_witness :
  let w :=
    mkWorld (mkClientEntityContext "orders" None (Some 10%nat) None)
      {[10%nat := mkMessageReceiver "orders-s" "orders" streaming
                    peekLock 1 false (Some 0%nat) None]}
      {[0%nat := mkLink "orders-s" true false]} 1 0 [] in
  let w' := detached sampleExternals 10 None (fun _ => Established None) w in
  getReceiver "orders-s" w' <> Some 10%nat
  /\ getReceiver (getUniqueName sampleExternals "orders" 0) w' = Some 10%nat.
Proof.
  destruct (reconnected_receiver_has_new_name sampleExternals 10 None
              (fun _ => Established None)
              (mkWorld (mkClientEntityContext "orders" None (Some 10%nat) None)
                 {[10%nat := mkMessageReceiver "orders-s" "orders" streaming
                               peekLock 1 false (Some 0%nat) None]}
                 {[0%nat := mkLink "orders-s" true false]} 1 0 [])
              (mkMessageReceiver "orders-s" "orders" streaming peekLock 1
                 false (Some 0%nat) None) 0%nat)
    as (_ & _ & Hold & Hnew);
    [reflexivity|reflexivity|reflexivity|reflexivity|simpl; lia
    |intros n Hn; lia|reflexivity|vm_compute; discriminate|].
  split; [exact Hold|exact (Hnew eq_refl)].
Defined.

End EntityContextFacts.
